(** * TaskCollection: the task registry, cycle check and critical-path ordering

    Shallow embedding of the class [TaskCollection] (methods [addTask],
    [hasTask], [addDependencies], [getOrderedTasks],
    [_checkForCyclicDependencies] and [_calculateCriticalPaths]).

    Modelling conventions.
    - A task object is a heap object that the registry and the
      [dependencies]/[dependents] sets of other tasks all refer to.  The
      registry is the store: a reference to a task is its name (the key it
      is stored under), and the fields of a task are always read from and
      written to the store.  Each [addTask] call is taken to receive a
      definition object of its own.
    - A JavaScript [Map] and [Set] iterate in insertion order, so the registry
      is an association list and a set is a duplicate-free list that grows
      at its end.
    - A method is a function from the collection to the collection after the
      call and the outcome of the call; an exception leaves the mutations
      done before the [throw] in place.
    - The two recursive methods take a recursion budget.  [Stuck] is the
      outcome of an exhausted budget, and of the two situations that the
      code cannot be in: a reference to no task, and [Math.max] of no
      argument.  The theorems show that [getOrderedTasks] is never [Stuck]
      on a collection the interface can produce once the cycle check has
      passed, and that the cycle check itself never is. *)

From Stdlib Require Import String List ZArith Bool Arith Lia.
From Stdlib Require Import Permutation Sorted Relations.
Import ListNotations.
Local Open Scope string_scope.
Local Open Scope list_scope.

(** ** Data model *)

(** Modelled from the spec: the enumeration [TaskStatus] is imported from
    './TaskStatus'; the spec lists its members as Ready, Executing, Success,
    Failure, Blocked. *)
Inductive TaskStatus : Type :=
| Ready
| Executing
| Success
| Failure
| Blocked.

(** The scheduler reads only [name] of a task definition. *)
Record ITaskDefinition : Type := mkDefinition { def_name : string }.

Record ITask : Type := mkTask {
  name : string;
  dependencies : list string;
  dependents : list string;
  status : TaskStatus;
  criticalPathLength : option Z
}.

(** The [Error] values the class throws, one constructor per [throw]
    statement, and the text of each. *)
Inductive Error : Type :=
| DuplicateTask
| TaskNotRegistered (taskName : string)
| DependenciesUndefined
| ProjectNotRegistered (dependencyName : string)
| CyclicDependency (chain : list string).

(** [Array.prototype.join] *)
Fixpoint join (sep : string) (l : list string) : string :=
  match l with
  | [] => ""
  | [x] => x
  | x :: r => x ++ sep ++ join sep r
  end.

Definition nl : string := String (Ascii.ascii_of_nat 10) "".

Definition message (e : Error) : string :=
  match e with
  | DuplicateTask => "A task with that name has already been registered."
  | TaskNotRegistered n => "The task '" ++ n ++ "' has not been registered"
  | DependenciesUndefined => "The list of dependencies must be defined"
  | ProjectNotRegistered d => "The project '" ++ d ++ "' has not been registered."
  | CyclicDependency chain =>
      "A cyclic dependency was encountered:" ++ nl
      ++ "  " ++ join (nl ++ "  -> ") chain
      ++ nl ++ "Consider using the cyclicDependencyProjects option for rush.json."
  end.

Inductive outcome (A : Type) : Type :=
| Return (a : A)
| Throw (e : Error)
| Stuck.
Arguments Return {A} a.
Arguments Throw {A} e.
Arguments Stuck {A}.

(** ** Sets and the registry map *)

Definition set_has (x : string) (s : list string) : bool :=
  existsb (String.eqb x) s.

(** [Set.prototype.add] *)
Definition set_add (x : string) (s : list string) : list string :=
  if set_has x s then s else s ++ [x].

Definition registry : Type := list (string * ITask).

(** [Map.prototype.get] *)
Fixpoint map_get (k : string) (m : registry) : option ITask :=
  match m with
  | [] => None
  | (k', t) :: r => if String.eqb k k' then Some t else map_get k r
  end.

(** [Map.prototype.has] *)
Definition map_has (k : string) (m : registry) : bool :=
  match map_get k m with Some _ => true | None => false end.

(** [Map.prototype.set]: a present key keeps its place. *)
Fixpoint map_set (k : string) (t : ITask) (m : registry) : registry :=
  match m with
  | [] => [(k, t)]
  | (k', t') :: r =>
      if String.eqb k k' then (k, t) :: r else (k', t') :: map_set k t r
  end.

Definition keys (m : registry) : list string := map fst m.
Definition values (m : registry) : list ITask := map snd m.

(** A write to a field of the task stored under [k]; keys are unique in
    every registry the interface produces. *)
Definition update (k : string) (f : ITask -> ITask) (m : registry) : registry :=
  map (fun e => if String.eqb k (fst e) then (fst e, f (snd e)) else e) m.

Definition add_dependency (d : string) (t : ITask) : ITask :=
  mkTask (name t) (set_add d (dependencies t)) (dependents t) (status t)
         (criticalPathLength t).

Definition add_dependent (d : string) (t : ITask) : ITask :=
  mkTask (name t) (dependencies t) (set_add d (dependents t)) (status t)
         (criticalPathLength t).

Definition set_criticalPathLength (n : Z) (t : ITask) : ITask :=
  mkTask (name t) (dependencies t) (dependents t) (status t) (Some n).

(** The fields read through a reference. *)
Definition dependents_of (m : registry) (k : string) : list string :=
  match map_get k m with Some t => dependents t | None => [] end.

Definition dependencies_of (m : registry) (k : string) : list string :=
  match map_get k m with Some t => dependencies t | None => [] end.

Definition cpl_of (m : registry) (k : string) : option Z :=
  match map_get k m with Some t => criticalPathLength t | None => None end.

(** ** The collection *)

Record TaskCollection : Type := mkCollection {
  _tasks : registry;
  _quietMode : bool;
  _terminal : list string   (* the lines written to the terminal *)
}.

Definition with_tasks (c : TaskCollection) (m : registry) : TaskCollection :=
  mkCollection m (_quietMode c) (_terminal c).

Definition writeLine (l : string) (c : TaskCollection) : TaskCollection :=
  mkCollection (_tasks c) (_quietMode c) (_terminal c ++ [l]).

(** [new TaskCollection({ quietMode })] *)
Definition new_TaskCollection (quietMode : bool) : TaskCollection :=
  mkCollection [] quietMode [].

Definition M (A : Type) : Type := TaskCollection -> TaskCollection * outcome A.

Definition addTask (taskDefinition : ITaskDefinition) : M unit := fun c =>
  if map_has (def_name taskDefinition) (_tasks c) then (c, Throw DuplicateTask)
  else
    let task := mkTask (def_name taskDefinition) [] [] Ready None in
    let c1 := with_tasks c (map_set (name task) task (_tasks c)) in
    (if _quietMode c then c1 else writeLine ("Registered " ++ name task) c1,
     Return tt).

Definition hasTask (taskName : string) : M bool := fun c =>
  (c, Return (map_has taskName (_tasks c))).

(** The body of the [for ... of] loop of [addDependencies], run over the
    rest of the list. *)
Fixpoint addDependencies_loop (taskName : string) (taskDependencies : list string)
    (m : registry) : registry * outcome unit :=
  match taskDependencies with
  | [] => (m, Return tt)
  | dependencyName :: rest =>
      if negb (map_has dependencyName m)
      then (m, Throw (ProjectNotRegistered dependencyName))
      else
        let m1 := update taskName (add_dependency dependencyName) m in
        let m2 := update dependencyName (add_dependent taskName) m1 in
        addDependencies_loop taskName rest m2
  end.

(** [taskDependencies] is [None] for an [undefined] or [null] argument. *)
Definition addDependencies (taskName : string)
    (taskDependencies : option (list string)) : M unit := fun c =>
  match map_get taskName (_tasks c) with
  | None => (c, Throw (TaskNotRegistered taskName))
  | Some _ =>
      match taskDependencies with
      | None => (c, Throw DependenciesUndefined)
      | Some deps =>
          let (m, r) := addDependencies_loop taskName deps (_tasks c) in
          (with_tasks c m, r)
      end
  end.

(** [_checkForCyclicDependencies].  The [for ... of] loop is [check_loop],
    with the recursive call on [task.dependents] as [recurse].  The chain is
    pushed before that call and popped after it, so the loop keeps its chain;
    the set of checked names is shared, hence returned. *)
Section CheckLoop.
Variable recurse : list string -> list string -> list string -> outcome (list string).
Variable m : registry.
Variable dependencyChain : list string.

Fixpoint check_loop (tasks : list string) (alreadyCheckedProjects : list string)
    : outcome (list string) :=
  match tasks with
  | [] => Return alreadyCheckedProjects
  | task :: rest =>
      if set_has task dependencyChain
      then Throw (CyclicDependency (rev (dependencyChain ++ [task])))
      else if negb (set_has task alreadyCheckedProjects)
      then
        match recurse (dependents_of m task) (dependencyChain ++ [task])
                (set_add task alreadyCheckedProjects) with
        | Return checked => check_loop rest checked
        | Throw e => Throw e
        | Stuck => Stuck
        end
      else check_loop rest alreadyCheckedProjects
  end.
End CheckLoop.

Fixpoint _checkForCyclicDependencies (fuel : nat) (m : registry)
    (tasks : list string) (dependencyChain : list string)
    (alreadyCheckedProjects : list string) : outcome (list string) :=
  match fuel with
  | O => Stuck
  | S fuel' =>
      check_loop (_checkForCyclicDependencies fuel' m) m dependencyChain
        tasks alreadyCheckedProjects
  end.

(** [Math.max(...l)] of a nonempty list [x :: l]. *)
Definition Math_max (x : Z) (l : list Z) : Z := fold_left Z.max l x.

(** [task.dependents.forEach(dep => depsLengths.push(recurse dep))] *)
Section CalcForEach.
Variable recurse : string -> registry -> registry * outcome Z.

Fixpoint calc_forEach (deps : list string) (m : registry) (depsLengths : list Z)
    : registry * outcome (list Z) :=
  match deps with
  | [] => (m, Return depsLengths)
  | dep :: rest =>
      match recurse dep m with
      | (m1, Return n) => calc_forEach rest m1 (depsLengths ++ [n])
      | (m1, Throw e) => (m1, Throw e)
      | (m1, Stuck) => (m1, Stuck)
      end
  end.
End CalcForEach.

(** [_calculateCriticalPaths].  [Math.max] of no argument is never taken:
    the branch is entered with a nonempty [dependents]. *)
Fixpoint _calculateCriticalPaths (fuel : nat) (task : string) (m : registry)
    : registry * outcome Z :=
  match fuel with
  | O => (m, Stuck)
  | S fuel' =>
      match map_get task m with
      | None => (m, Stuck)
      | Some t =>
          match criticalPathLength t with
          | Some n => (m, Return n)
          | None =>
              match dependents t with
              | [] => (update task (set_criticalPathLength 0) m, Return 0%Z)
              | _ :: _ =>
                  match calc_forEach (_calculateCriticalPaths fuel')
                          (dependents t) m [] with
                  | (m1, Return (x :: l)) =>
                      let n := (Math_max x l + 1)%Z in
                      (update task (set_criticalPathLength n) m1, Return n)
                  | (m1, Return []) => (m1, Stuck)
                  | (m1, Throw e) => (m1, Throw e)
                  | (m1, Stuck) => (m1, Stuck)
                  end
              end
          end
      end
  end.

(** [this._tasks.forEach(task => this._calculateCriticalPaths(task))] *)
Fixpoint calculateAll (fuel : nat) (tasks : list string) (m : registry)
    : registry * outcome unit :=
  match tasks with
  | [] => (m, Return tt)
  | task :: rest =>
      match _calculateCriticalPaths fuel task m with
      | (m1, Return _) => calculateAll fuel rest m1
      | (m1, Throw e) => (m1, Throw e)
      | (m1, Stuck) => (m1, Stuck)
      end
  end.

(** The sort key [-task.criticalPathLength!]; [None] is the NaN of an
    undefined length. *)
Definition sort_key (t : ITask) : option Z :=
  match criticalPathLength t with Some n => Some (- n)%Z | None => None end.

(** [x <= y] on keys; every comparison with NaN is false. *)
Definition key_leb (x y : option Z) : bool :=
  match x, y with
  | Some a, Some b => (a <=? b)%Z
  | _, _ => false
  end.

(** Modelled from the spec: [Sort.sortBy] of '@microsoft/node-core-library'
    is not part of the sources at hand.  The spec has it as a stable sort by
    the key, ascending, so that the queue comes out descending by
    [criticalPathLength] and equal keys keep the order of the collected
    queue.  A stable insertion sort is that function. *)
Fixpoint sortBy_insert (key : ITask -> option Z) (x : ITask) (l : list ITask)
    : list ITask :=
  match l with
  | [] => [x]
  | y :: r =>
      if key_leb (key x) (key y) then x :: y :: r
      else y :: sortBy_insert key x r
  end.

Fixpoint sortBy (l : list ITask) (key : ITask -> option Z) : list ITask :=
  match l with
  | [] => []
  | x :: r => sortBy_insert key x (sortBy r key)
  end.

(** The recursion budget of one [getOrderedTasks] call. *)
Definition budget (m : registry) : nat := S (length m).

(** [getOrderedTasks], with the library sort as [sort]. *)
Definition getOrderedTasks_with
    (sort : list ITask -> (ITask -> option Z) -> list ITask)
    : M (list ITask) := fun c =>
  let m := _tasks c in
  match _checkForCyclicDependencies (budget m) m (keys m) [] [] with
  | Throw e => (c, Throw e)
  | Stuck => (c, Stuck)
  | Return _ =>
      match calculateAll (budget m) (keys m) m with
      | (m1, Throw e) => (with_tasks c m1, Throw e)
      | (m1, Stuck) => (with_tasks c m1, Stuck)
      | (m1, Return _) =>
          let buildQueue := values m1 in
          (with_tasks c m1, Return (sort buildQueue sort_key))
      end
  end.

Definition getOrderedTasks : M (list ITask) := getOrderedTasks_with sortBy.

(** ** The dependency graph of a registry *)

(** [edge m a b]: [b] is a dependent of [a]; the cycle check and the critical
    paths both follow these edges. *)
Definition edge (m : registry) (a b : string) : Prop := In b (dependents_of m a).

Definition on_cycle (m : registry) (a : string) : Prop := clos_trans string (edge m) a a.

Definition acyclic (m : registry) : Prop := forall a, ~ on_cycle m a.

(** A list of names in which each is followed by one of its dependents. *)
Fixpoint is_path (m : registry) (l : list string) : Prop :=
  match l with
  | a :: (b :: _) as r => edge m a b /\ is_path m r
  | _ => True
  end.

(** The invariants of a registry: names are keys once, the sets refer to
    registered tasks, and the two sets mirror each other. *)
Record wf (m : registry) : Prop := mk_wf {
  wf_keys : NoDup (keys m);
  wf_closed : forall a b, In b (dependents_of m a) -> In b (keys m);
  wf_inverse : forall a b, In b (dependencies_of m a) <-> In a (dependents_of m b)
}.

(** What [getOrderedTasks] may not touch: a task without its memoized
    length. *)
Definition forget_cpl (t : ITask) : ITask :=
  mkTask (name t) (dependencies t) (dependents t) (status t) None.

Definition same_graph (m m' : registry) : Prop :=
  map (fun e => (fst e, forget_cpl (snd e))) m
  = map (fun e => (fst e, forget_cpl (snd e))) m'.

(** The registries built by successful [addTask] and [addDependencies] calls
    alone. *)
Inductive built : TaskCollection -> Prop :=
| built_new : forall q, built (new_TaskCollection q)
| built_addTask : forall c d c',
    built c -> addTask d c = (c', Return tt) -> built c'
| built_addDependencies : forall c n deps c',
    built c -> addDependencies n (Some deps) c = (c', Return tt) -> built c'.

(** The calls of the public interface, and the collection after a sequence
    of them, failed calls included. *)
Inductive call : Type :=
| call_addTask (d : ITaskDefinition)
| call_hasTask (n : string)
| call_addDependencies (n : string) (deps : option (list string))
| call_getOrderedTasks.

Definition after_call (c : TaskCollection) (o : call) : TaskCollection :=
  match o with
  | call_addTask d => fst (addTask d c)
  | call_hasTask n => fst (hasTask n c)
  | call_addDependencies n deps => fst (addDependencies n deps c)
  | call_getOrderedTasks => fst (getOrderedTasks c)
  end.

Definition after_calls (q : bool) (l : list call) : TaskCollection :=
  fold_left after_call l (new_TaskCollection q).

(** ** The properties of the cycle check, the lengths and the queue *)

(** Checked and no longer on the chain: the subtree of the task has been
    walked through. *)
Definition finished (checked chain : list string) (v : string) : Prop :=
  In v checked /\ ~ In v chain.

Definition check_inv (m : registry) (checked chain : list string) : Prop :=
  forall v, finished checked chain v ->
    (forall w, edge m v w -> finished checked chain w) /\ ~ on_cycle m v.

(** What a call of the cycle check gives, for each outcome.  A thrown chain
    is a path that runs into one of its own names. *)
Definition check_post (m : registry) (tasks chain checked : list string)
    (o : outcome (list string)) : Prop :=
  match o with
  | Stuck => False
  | Throw e =>
      exists pre t cyc,
        e = CyclicDependency (rev (pre ++ t :: cyc ++ [t]))
        /\ is_path m (pre ++ t :: cyc ++ [t])
        /\ NoDup (pre ++ t :: cyc)
        /\ incl (pre ++ t :: cyc) (keys m)
        /\ exists tl, pre ++ t :: cyc = chain ++ tl
  | Return checked' =>
      incl checked checked'
      /\ (forall t, In t tasks -> finished checked' chain t)
      /\ check_inv m checked' chain
  end.

(** [ls] are the memoized lengths of the tasks [deps], in order. *)
Definition lengths (m : registry) (deps : list string) (ls : list Z) : Prop :=
  Forall2 (fun d l => cpl_of m d = Some l) deps ls.

(** The equation a memoized length [n] of [k] is to satisfy, read with the
    functions of the code. *)
Definition cpl_eqn (m : registry) (k : string) (n : Z) : Prop :=
  match dependents_of m k with
  | [] => n = 0%Z
  | d :: ds => exists x l, lengths m (d :: ds) (x :: l) /\ n = (Math_max x l + 1)%Z
  end.

Definition memo_ok (m : registry) : Prop :=
  forall k n, cpl_of m k = Some n -> cpl_eqn m k n.

Definition memo_mono (m m' : registry) : Prop :=
  forall k v, cpl_of m k = Some v -> cpl_of m' k = Some v.

Definition reach (g : registry) : string -> string -> Prop :=
  clos_refl_trans string (edge g).

(** What one [_calculateCriticalPaths] call gives when started from the
    registry [m]: a length, memoized; the graph kept; the memo only grown,
    and only below [task]. *)
Definition calc_post (g m : registry) (task : string)
    (r : registry * outcome Z) : Prop :=
  exists m' n,
    r = (m', Return n)
    /\ same_graph g m'
    /\ cpl_of m' task = Some n
    /\ memo_mono m m'
    /\ (memo_ok m -> memo_ok m')
    /\ (forall k, ~ reach g task k -> cpl_of m' k = cpl_of m k).

Definition has_cpl (n : Z) (t : ITask) : bool :=
  match criticalPathLength t with Some v => Z.eqb v n | None => false end.

(** [a] may stand before [b] in a queue that is descending by length. *)
Definition cpl_ge (a b : ITask) : Prop :=
  exists x y, criticalPathLength a = Some x /\ criticalPathLength b = Some y
              /\ (y <= x)%Z.

Definition cpl_defined (t : ITask) : Prop := criticalPathLength t <> None.

(** One turn of the loop of [addDependencies]. *)
Definition add_edge (taskName dependencyName : string) (m : registry) : registry :=
  update dependencyName (add_dependent taskName)
    (update taskName (add_dependency dependencyName) m).

(** A task carries the name it is registered under. *)
Definition named (e : string * ITask) : Prop := name (snd e) = fst e.

(** No length has been memoized. *)
Definition unmemoized (e : string * ITask) : Prop := criticalPathLength (snd e) = None.

(** The equation of the critical path, read as a maximum: every dependent
    lies at least one below [n], and one lies exactly one below. *)
Definition critical_path_equation (m : registry) (k : string) (n : Z) : Prop :=
  match dependents_of m k with
  | [] => n = 0%Z
  | _ :: _ =>
      (forall d, In d (dependents_of m k) ->
         exists v, cpl_of m d = Some v /\ (v + 1 <= n)%Z)
      /\ (exists d, In d (dependents_of m k) /\ cpl_of m d = Some (n - 1)%Z)
  end.

(** Every registered task has a length, and it satisfies the equation. *)
Definition critical_paths (m : registry) : Prop :=
  forall k, In k (keys m) ->
    exists n, cpl_of m k = Some n /\ critical_path_equation m k n.

(** The edge [taskName -> dependencyName] is present on both sides, in every
    entry concerned. *)
Definition edge_present (taskName dependencyName : string) (e : string * ITask) : Prop :=
  (fst e = taskName -> In dependencyName (dependencies (snd e)))
  /\ (fst e = dependencyName -> In taskName (dependents (snd e))).

(** The names the loop of [addDependencies] gets through: those before the
    first unregistered one. *)
Fixpoint processed (deps : list string) (m : registry) : list string :=
  match deps with
  | [] => []
  | d :: rest => if map_has d m then d :: processed rest m else []
  end.

(** The calls [l] are [addTask] and [addDependencies] calls and each of them
    returns when run from [c] on. *)
Fixpoint all_succeed (c : TaskCollection) (l : list call) : bool :=
  match l with
  | [] => true
  | call_addTask d :: r =>
      match addTask d c with
      | (c', Return _) => all_succeed c' r
      | _ => false
      end
  | call_addDependencies n (Some deps) :: r =>
      match addDependencies n (Some deps) c with
      | (c', Return _) => all_succeed c' r
      | _ => false
      end
  | _ => false
  end.

(** ** Example collections *)

(** Two tasks ordered once, and an edge declared afterwards. *)
Definition stale_memo : TaskCollection :=
  after_calls true
    [call_addTask (mkDefinition "A"); call_addTask (mkDefinition "B");
     call_getOrderedTasks;
     call_addDependencies "B" (Some ["A"])].

(** The cycle A -> B -> C -> A of dependents, entered from the task D that
    is registered first and is not on it. *)
Definition tail_into_cycle : TaskCollection :=
  after_calls true
    [call_addTask (mkDefinition "D"); call_addTask (mkDefinition "A");
     call_addTask (mkDefinition "B"); call_addTask (mkDefinition "C");
     call_addDependencies "A" (Some ["D"]);
     call_addDependencies "B" (Some ["A"]);
     call_addDependencies "C" (Some ["B"]);
     call_addDependencies "A" (Some ["C"])].

Definition two_tasks : TaskCollection :=
  after_calls true
    [call_addTask (mkDefinition "A"); call_addTask (mkDefinition "B")].

(** C depends on B, B depends on A. *)
Definition chain_of_three : TaskCollection :=
  after_calls false
    [call_addTask (mkDefinition "A"); call_addTask (mkDefinition "B");
     call_addTask (mkDefinition "C");
     call_addDependencies "C" (Some ["B"]);
     call_addDependencies "B" (Some ["A"])].

(** The names the [addTask] calls of [l] register, each at its first call. *)
Definition registered_names (l : list call) : list string :=
  fold_left
    (fun acc o => match o with
                  | call_addTask d => set_add (def_name d) acc
                  | _ => acc
                  end)
    l [].

(** The outcome of [addDependencies] read off the registered names alone:
    the error of the first test that fails. *)
Definition addDependencies_outcome (taskName : string)
    (taskDependencies : option (list string)) (m : registry) : outcome unit :=
  if negb (map_has taskName m) then Throw (TaskNotRegistered taskName)
  else match taskDependencies with
       | None => Throw DependenciesUndefined
       | Some deps =>
           match find (fun d => negb (map_has d m)) deps with
           | Some d => Throw (ProjectNotRegistered d)
           | None => Return tt
           end
       end.

(** ** The class [Git]

    The class keeps the target branch and does nothing but call
    [PublishUtilities.execCommand(shouldExecute, command, args)], which is
    not among the sources at hand.  A method is modelled as the list of the
    calls it makes, in order. *)

Record ExecCommand : Type := mkExec {
  shouldExecute : bool;
  command : string;
  args : list string
}.

(** [!!s] of a string [s] *)
Definition truthy (s : string) : bool := negb (String.eqb s "").

Definition space : Ascii.ascii := Ascii.ascii_of_nat 32.

(** [s.split(' ')] *)
Fixpoint split_space (s : string) : list string :=
  match s with
  | EmptyString => [EmptyString]
  | String ch r =>
      if Ascii.eqb ch space then EmptyString :: split_space r
      else match split_space r with
           | h :: t => String ch h :: t
           | [] => [String ch EmptyString]
           end
  end.

Fixpoint has_space (s : string) : bool :=
  match s with
  | EmptyString => false
  | String ch r => Ascii.eqb ch space || has_space r
  end.

Fixpoint count_spaces (s : string) : nat :=
  match s with
  | EmptyString => O
  | String ch r => (if Ascii.eqb ch space then 1 else 0) + count_spaces r
  end.

Module Git.
Section Methods.
Variable _targetBranch : string.

(** [PublishUtilities.createTagname], of which [addTag] uses the result
    only. *)
Variable createTagname : string -> string -> string.

(** [createBranch] is [None] when the optional argument is left out. *)
Definition checkout (branchName : string) (createBranch : option bool)
    : list ExecCommand :=
  let params :=
    ("checkout "
     ++ (match createBranch with Some true => "-b " | _ => "" end)
     ++ branchName)%string in
  [mkExec (truthy _targetBranch) "git" (split_space params)].

Definition merge (branchName : string) : list ExecCommand :=
  [mkExec (truthy _targetBranch) "git"
     (split_space ("merge " ++ branchName ++ " --no-edit")%string)].

Definition deleteBranch (branchName : string) : list ExecCommand :=
  [mkExec (truthy _targetBranch) "git"
     (split_space ("branch -d " ++ branchName)%string);
   mkExec (truthy _targetBranch) "git"
     (split_space ("push origin --delete " ++ branchName)%string)].

Definition pull : list ExecCommand :=
  [mkExec (truthy _targetBranch) "git"
     (split_space ("pull origin " ++ _targetBranch)%string)].

Definition addChanges : list ExecCommand :=
  [mkExec (truthy _targetBranch) "git" ["add"; "."]].

Definition addTag (shouldExecute : bool) (packageName packageVersion : string)
    : list ExecCommand :=
  let tagName := createTagname packageName packageVersion in
  [mkExec (truthy _targetBranch && shouldExecute) "git"
     ["tag"; "-a"; tagName; "-m"; (packageName ++ " v" ++ packageVersion)%string]].

Definition commit : list ExecCommand :=
  [mkExec (truthy _targetBranch) "git" ["commit"; "-m"; "Applying package updates."]].

Definition push (branchName : string) : list ExecCommand :=
  [mkExec (truthy _targetBranch) "git"
     ["push"; "origin"; ("HEAD:" ++ branchName)%string; "--follow-tags"; "--verbose"]].
End Methods.
End Git.

(** The calls of the methods of [Git]. *)
Inductive git_call : Type :=
| git_checkout (branchName : string) (createBranch : option bool)
| git_merge (branchName : string)
| git_deleteBranch (branchName : string)
| git_pull
| git_addChanges
| git_addTag (shouldExecute : bool) (packageName packageVersion : string)
| git_commit
| git_push (branchName : string).

Definition git_commands (_targetBranch : string)
    (createTagname : string -> string -> string) (o : git_call) : list ExecCommand :=
  match o with
  | git_checkout b cb => Git.checkout _targetBranch b cb
  | git_merge b => Git.merge _targetBranch b
  | git_deleteBranch b => Git.deleteBranch _targetBranch b
  | git_pull => Git.pull _targetBranch
  | git_addChanges => Git.addChanges _targetBranch
  | git_addTag e n v => Git.addTag _targetBranch createTagname e n v
  | git_commit => Git.commit _targetBranch
  | git_push b => Git.push _targetBranch b
  end.

(** ** The path of the cycle check, told from the graph *)

(** A cycle can be reached from [x] along dependents. *)
Definition reaches_cycle (m : registry) (x : string) : Prop :=
  exists y, reach m x y /\ on_cycle m y.

(** [x] is the first name of [l] from which a cycle can be reached. *)
Definition first_reaching_cycle (m : registry) (l : list string) (x : string) : Prop :=
  exists l1 l2,
    l = l1 ++ x :: l2 /\ reaches_cycle m x
    /\ forall y, In y l1 -> ~ reaches_cycle m y.

(** Each name is followed by the first of its dependents, in the order of
    the set, from which a cycle can be reached. *)
Fixpoint leftmost (m : registry) (w : list string) : Prop :=
  match w with
  | a :: (b :: _) as r => first_reaching_cycle m (dependents_of m a) b /\ leftmost m r
  | _ => True
  end.

(** [w] starts at the first name of [roots] from which a cycle can be
    reached and goes on leftmost. *)
Definition walk_from (m : registry) (roots : list string) (w : list string) : Prop :=
  match w with
  | [] => False
  | x :: _ => first_reaching_cycle m roots x
  end
  /\ leftmost m w.

(** The walk from the registered names, in the order of registration, up to
    the first name that it meets a second time. *)
Definition cycle_walk (m : registry) (w : list string) : Prop :=
  walk_from m (keys m) w
  /\ exists s t, w = s ++ [t] /\ NoDup s /\ In t s.

(** The names and lengths of a returned queue, in order. *)
Definition queue_summary (o : outcome (list ITask)) : list (string * option Z) :=
  match o with
  | Return q => map (fun t => (name t, criticalPathLength t)) q
  | _ => []
  end.

(** ** Sets and maps: basic facts *)

Lemma set_has_In x s : set_has x s = true <-> In x s.
Proof.
  unfold set_has. rewrite existsb_exists. split.
  - intros (y & Hy & E). apply String.eqb_eq in E. now subst.
  - intros H. exists x. split; [assumption | apply String.eqb_refl].
Qed.

Lemma set_has_false x s : set_has x s = false <-> ~ In x s.
Proof.
  rewrite <- set_has_In. destruct (set_has x s); split; congruence.
Qed.

Lemma set_add_In x y s : In y (set_add x s) <-> y = x \/ In y s.
Proof.
  unfold set_add. destruct (set_has x s) eqn:E.
  - apply set_has_In in E. split; [tauto | intros [-> | H]; assumption].
  - rewrite in_app_iff. simpl. split; intros H; repeat destruct H as [H | H]; auto.
    contradiction.
Qed.

Lemma set_add_present x s : In x s -> set_add x s = s.
Proof.
  intros H. unfold set_add. apply set_has_In in H. now rewrite H.
Qed.

Lemma keys_update k f m : keys (update k f m) = keys m.
Proof.
  unfold keys, update. rewrite map_map. apply map_ext.
  intros [k' t]. simpl. now destruct (String.eqb k k').
Qed.

Lemma length_keys m : length (keys m) = length m.
Proof. apply length_map. Qed.

Lemma map_get_update k k' f m :
  map_get k' (update k f m)
  = if String.eqb k k' then option_map f (map_get k' m) else map_get k' m.
Proof.
  induction m as [| [k0 t] m IH]; simpl.
  - now destruct (String.eqb k k').
  - destruct (String.eqb k k0) eqn:E0; simpl;
      destruct (String.eqb k' k0) eqn:E1; simpl.
    + apply String.eqb_eq in E0, E1. subst. now rewrite String.eqb_refl.
    + exact IH.
    + apply String.eqb_eq in E1. subst. now rewrite E0.
    + exact IH.
Qed.

Lemma map_has_keys k m : map_has k m = true <-> In k (keys m).
Proof.
  unfold map_has. induction m as [| [k0 t] m IH]; simpl.
  - split; [discriminate | contradiction].
  - destruct (String.eqb k k0) eqn:E.
    + apply String.eqb_eq in E. subst. split; auto.
    + apply String.eqb_neq in E. rewrite IH. split; [auto | intros [H | H]]; congruence.
Qed.

Lemma map_get_keys k m : (exists t, map_get k m = Some t) <-> In k (keys m).
Proof.
  rewrite <- map_has_keys. unfold map_has.
  destruct (map_get k m); split; eauto; try discriminate. now intros [t H].
Qed.

Lemma map_get_None k m : map_get k m = None <-> ~ In k (keys m).
Proof.
  rewrite <- map_get_keys. destruct (map_get k m) as [t |].
  - split; [discriminate | intros H; exfalso; eauto].
  - split; [intros _ [t' H]; discriminate | reflexivity].
Qed.

Lemma map_has_update k k' f m : map_has k' (update k f m) = map_has k' m.
Proof.
  unfold map_has. rewrite map_get_update.
  destruct (String.eqb k k'), (map_get k' m); reflexivity.
Qed.

Lemma map_get_In k t m : map_get k m = Some t -> In (k, t) m.
Proof.
  induction m as [| [k0 t0] m IH]; simpl; [discriminate |].
  destruct (String.eqb k k0) eqn:E.
  - apply String.eqb_eq in E. intros [= ->]. subst. now left.
  - auto.
Qed.

Lemma In_map_get k t m : NoDup (keys m) -> In (k, t) m -> map_get k m = Some t.
Proof.
  induction m as [| [k0 t0] m IH]; simpl; [contradiction |].
  intros ND [H | H]; inversion ND; subst.
  - inversion H; subst. now rewrite String.eqb_refl.
  - destruct (String.eqb k k0) eqn:E; [| auto].
    apply String.eqb_eq in E. subst. exfalso. apply H2.
    change k0 with (fst (k0, t)). now apply in_map.
Qed.

Lemma dependents_of_registered m a b : In b (dependents_of m a) -> In a (keys m).
Proof.
  unfold dependents_of. intros H. apply map_get_keys.
  destruct (map_get a m); [eauto | contradiction].
Qed.

(** ** Paths and cycles *)

Lemma is_path_snoc m l t :
  is_path m l -> (forall pre u, l = pre ++ [u] -> edge m u t) ->
  is_path m (l ++ [t]).
Proof.
  induction l as [| a l IH]; intros P E; [exact I |].
  destruct l as [| b l].
  - simpl. split; [| exact I]. now apply (E []).
  - destruct P as [Eab P]. split; [exact Eab |].
    apply IH; [exact P |]. intros pre u Hp. apply (E (a :: pre)). now rewrite Hp.
Qed.

Lemma is_path_app_inv m l1 l2 : is_path m (l1 ++ l2) -> is_path m l2.
Proof.
  induction l1 as [| a l1 IH]; [auto |].
  intros P. apply IH. simpl in P. destruct (l1 ++ l2); [exact I | apply P].
Qed.

(** A path with at least one edge links its ends. *)
Lemma is_path_clos_trans m a l b :
  is_path m (a :: l ++ [b]) -> clos_trans string (edge m) a b.
Proof.
  revert a. induction l as [| x l IH]; intros a P.
  - apply t_step. apply P.
  - destruct P as [E P]. eapply t_trans; [apply t_step; exact E | now apply IH].
Qed.

(** A set closed under the edges contains all that is reachable from a
    name whose dependents it contains. *)
Lemma closed_reach m (P : string -> Prop) :
  (forall v w, P v -> edge m v w -> P w) ->
  forall a b, clos_trans string (edge m) a b ->
  (forall w, edge m a w -> P w) -> P b.
Proof.
  intros Hcl a b R. induction R as [a b E | a y b R1 IH1 R2 IH2]; intros Ha.
  - now apply Ha.
  - apply IH2. intros w E. apply (Hcl y); [now apply IH1 | exact E].
Qed.

Lemma unregistered_not_on_cycle m a : ~ In a (keys m) -> ~ on_cycle m a.
Proof.
  intros N C. apply clos_trans_t1n in C. inversion C as [y E | y z E _]; subst;
    apply dependents_of_registered in E; contradiction.
Qed.

(** ** The cycle check *)

Section CycleCheck.
Variable m : registry.
Hypothesis closed : forall a b, In b (dependents_of m a) -> In b (keys m).

Lemma check_inv_push checked chain t :
  ~ In t checked -> check_inv m checked chain ->
  check_inv m (set_add t checked) (chain ++ [t]).
Proof.
  intros Nt Inv.
  assert (Eq : forall v, finished (set_add t checked) (chain ++ [t]) v
                         <-> finished checked chain v).
  { intros v. unfold finished. rewrite set_add_In, in_app_iff. simpl.
    split.
    - intros [[-> | H] N]; [exfalso; apply N; auto | split; [exact H | tauto]].
    - intros [H N]. split; [now right |]. intros [H' | [-> | []]]; auto. }
  intros v Fv. apply Eq in Fv. destruct (Inv v Fv) as [Hs Hc]. split; [| exact Hc].
  intros w E. apply Eq. now apply Hs.
Qed.

Lemma check_inv_pop checked chain t :
  ~ In t chain ->
  (forall w, edge m t w -> finished checked (chain ++ [t]) w) ->
  check_inv m checked (chain ++ [t]) ->
  check_inv m checked chain.
Proof.
  intros Nt Hdeps Inv.
  assert (W : forall v, finished checked (chain ++ [t]) v -> finished checked chain v).
  { intros v [H N]. split; [exact H |]. intros H'. apply N, in_app_iff. now left. }
  intros v [Hv Nv]. destruct (string_dec v t) as [-> | Ne].
  - split; [intros w E; now apply W, Hdeps |].
    intros C.
    assert (F : finished checked (chain ++ [t]) t).
    { apply (closed_reach m (finished checked (chain ++ [t]))) with (a := t).
      - intros x w Fx E. now apply (Inv x Fx).
      - exact C.
      - exact Hdeps. }
    destruct F as [_ N]. apply N, in_app_iff. right. now left.
  - assert (F : finished checked (chain ++ [t]) v).
    { split; [exact Hv |]. rewrite in_app_iff. simpl. intros [H | [H | []]]; auto. }
    destruct (Inv v F) as [Hs Hc]. split; [| exact Hc].
    intros w E. now apply W, Hs.
Qed.

Lemma check_spec fuel : forall tasks chain checked,
  length (keys m) < fuel + length chain ->
  NoDup chain -> incl chain (keys m) -> incl tasks (keys m) ->
  is_path m chain ->
  (forall pre u t, chain = pre ++ [u] -> In t tasks -> edge m u t) ->
  check_inv m checked chain ->
  check_post m tasks chain checked
    (_checkForCyclicDependencies fuel m tasks chain checked).
Proof.
  induction fuel as [| fuel IHf]; intros tasks chain checked Hlen ND Hc Ht P HE Inv.
  - simpl. apply NoDup_incl_length in Hc; [| exact ND]. simpl in Hlen. lia.
  - simpl. revert checked Inv.
    induction tasks as [| t rest IHt]; intros checked Inv; simpl.
    + split; [apply incl_refl |]. split; [intros t [] | exact Inv].
    + assert (Hrest : incl rest (keys m)) by (intros x Hx; apply Ht; now right).
      assert (HErest : forall pre u t0, chain = pre ++ [u] -> In t0 rest -> edge m u t0)
        by (intros pre u t0 E H0; apply (HE pre u t0 E); now right).
      destruct (set_has t chain) eqn:Ech.
      * apply set_has_In in Ech. destruct (in_split _ _ Ech) as (pre & cyc & Esplit).
        exists pre, t, cyc.
        assert (Eapp : pre ++ t :: cyc ++ [t] = chain ++ [t])
          by (rewrite Esplit, <- app_assoc; reflexivity).
        rewrite Eapp. split; [reflexivity |]. split.
        { apply is_path_snoc; [exact P |]. intros pre' u E. apply (HE pre' u t E). now left. }
        rewrite <- Esplit. split; [exact ND |]. split; [exact Hc |].
        exists []. now rewrite app_nil_r.
      * apply set_has_false in Ech.
        destruct (set_has t checked) eqn:Eck; simpl.
        -- apply set_has_In in Eck.
           specialize (IHt Hrest HErest checked Inv).
           destruct (check_loop _ m chain rest checked) as [ck' | e |]; simpl in *;
             [| exact IHt | exact IHt].
           destruct IHt as (I1 & I2 & I3). split; [exact I1 |]. split; [| exact I3].
           intros x [<- | Hx]; [split; auto | now apply I2].
        -- apply set_has_false in Eck.
           assert (Rec : check_post m (dependents_of m t) (chain ++ [t]) (set_add t checked)
                     (_checkForCyclicDependencies fuel m (dependents_of m t)
                        (chain ++ [t]) (set_add t checked))).
           { apply IHf.
             - rewrite length_app. simpl. lia.
             - apply NoDup_app; [exact ND | constructor; [intros [] | constructor] |].
               intros x Hx [<- | []]. contradiction.
             - apply incl_app; [exact Hc |]. intros x [<- | []]. apply Ht. now left.
             - intros x Hx. now apply (closed t).
             - apply is_path_snoc; [exact P |]. intros pre' u E. apply (HE pre' u t E). now left.
             - intros pre' u t0 E H0. apply app_inj_tail in E. destruct E as [_ <-]. exact H0.
             - now apply check_inv_push. }
           destruct (_checkForCyclicDependencies fuel m (dependents_of m t)
                       (chain ++ [t]) (set_add t checked)) as [ck1 | e |]; simpl in Rec.
           ++ destruct Rec as (R1 & R2 & R3).
              assert (Inv1 : check_inv m ck1 chain)
                by (apply (check_inv_pop ck1 chain t); assumption).
              specialize (IHt Hrest HErest ck1 Inv1).
              destruct (check_loop _ m chain rest ck1) as [ck' | e |]; simpl in *;
                [| exact IHt | exact IHt].
              destruct IHt as (I1 & I2 & I3).
              assert (Hsub : incl checked ck').
              { intros x Hx. apply I1, R1, set_add_In. now right. }
              split; [exact Hsub |]. split; [| exact I3].
              intros x [<- | Hx]; [| now apply I2].
              split; [| exact Ech]. apply I1, R1, set_add_In. now left.
           ++ destruct Rec as (pre & t0 & cyc & E1 & E2 & E3 & E4 & tl & E5).
              exists pre, t0, cyc. repeat (split; [assumption |]).
              exists ([t] ++ tl). now rewrite app_assoc.
           ++ contradiction.
Qed.
End CycleCheck.

Lemma check_top m :
  (forall a b, In b (dependents_of m a) -> In b (keys m)) ->
  check_post m (keys m) [] []
    (_checkForCyclicDependencies (budget m) m (keys m) [] []).
Proof.
  intros closed. apply check_spec; try exact closed.
  - unfold budget. rewrite length_keys. simpl. lia.
  - constructor.
  - intros x [].
  - apply incl_refl.
  - exact I.
  - intros [| x pre] u t E; discriminate.
  - intros v [[] _].
Qed.

(** The check passes on an acyclic graph... *)
Lemma check_acyclic m :
  (forall a b, In b (dependents_of m a) -> In b (keys m)) ->
  acyclic m ->
  exists checked,
    _checkForCyclicDependencies (budget m) m (keys m) [] [] = Return checked.
Proof.
  intros closed A. pose proof (check_top m closed) as H.
  destruct (_checkForCyclicDependencies (budget m) m (keys m) [] [])
    as [ck | e |]; simpl in H; [eauto | | contradiction].
  destruct H as (pre & t & cyc & _ & P & _). exfalso. apply (A t).
  apply is_path_app_inv in P. now apply is_path_clos_trans in P.
Qed.

(** ... and throws on every other one. *)
Lemma check_cyclic m :
  (forall a b, In b (dependents_of m a) -> In b (keys m)) ->
  ~ acyclic m ->
  exists pre t cyc,
    _checkForCyclicDependencies (budget m) m (keys m) [] []
    = Throw (CyclicDependency (rev (pre ++ t :: cyc ++ [t])))
    /\ is_path m (pre ++ t :: cyc ++ [t])
    /\ NoDup (pre ++ t :: cyc).
Proof.
  intros closed A. pose proof (check_top m closed) as H.
  destruct (_checkForCyclicDependencies (budget m) m (keys m) [] [])
    as [ck | e |]; simpl in H; [| | contradiction].
  - exfalso. apply A. intros a C. destruct H as (_ & F & Inv).
    destruct (in_dec string_dec a (keys m)) as [Ha | Ha].
    + now apply (Inv a (F a Ha)).
    + now apply (unregistered_not_on_cycle m a).
  - destruct H as (pre & t & cyc & -> & P & ND & _). now exists pre, t, cyc.
Qed.

(** ** Registries with the same graph *)

Arguments forget_cpl : simpl never.

Lemma same_graph_refl m : same_graph m m.
Proof. reflexivity. Qed.

Lemma same_graph_trans m1 m2 m3 :
  same_graph m1 m2 -> same_graph m2 m3 -> same_graph m1 m3.
Proof. unfold same_graph. congruence. Qed.

Lemma same_graph_keys m m' : same_graph m m' -> keys m = keys m'.
Proof.
  unfold same_graph, keys. intros H.
  apply (f_equal (map fst)) in H. rewrite !map_map in H. exact H.
Qed.

Lemma same_graph_get m m' k :
  same_graph m m' ->
  option_map forget_cpl (map_get k m) = option_map forget_cpl (map_get k m').
Proof.
  unfold same_graph. revert m'.
  induction m as [| [k0 t0] m IH]; intros [| [k1 t1] m'] H; simpl in *;
    try discriminate; [reflexivity |].
  inversion H as [[E1 E2 E3 E4 E5 E6]]. subst k1.
  destruct (String.eqb k k0); simpl; [| now apply IH].
  unfold forget_cpl. congruence.
Qed.

Lemma same_graph_dependents m m' k :
  same_graph m m' -> dependents_of m' k = dependents_of m k.
Proof.
  intros H. apply (same_graph_get _ _ k) in H. unfold dependents_of.
  destruct (map_get k m), (map_get k m'); simpl in H; try discriminate;
    [| reflexivity].
  unfold forget_cpl in H. injection H; intros; congruence.
Qed.

Lemma same_graph_dependencies m m' k :
  same_graph m m' -> dependencies_of m' k = dependencies_of m k.
Proof.
  intros H. apply (same_graph_get _ _ k) in H. unfold dependencies_of.
  destruct (map_get k m), (map_get k m'); simpl in H; try discriminate;
    [| reflexivity].
  unfold forget_cpl in H. injection H; intros; congruence.
Qed.

Lemma same_graph_set_cpl m k n :
  same_graph m (update k (set_criticalPathLength n) m).
Proof.
  unfold same_graph, update. rewrite map_map. apply map_ext.
  intros [k0 t0]. simpl. now destruct (String.eqb k k0).
Qed.

Lemma cpl_of_set_cpl m k n k' :
  cpl_of (update k (set_criticalPathLength n) m) k'
  = if String.eqb k k' then
      (if map_has k' m then Some n else None)
    else cpl_of m k'.
Proof.
  unfold cpl_of, map_has. rewrite map_get_update.
  destruct (String.eqb k k'), (map_get k' m); reflexivity.
Qed.

(** ** Critical paths *)

Lemma edge_reach_trans g a b c :
  edge g a b -> reach g b c -> clos_trans string (edge g) a c.
Proof.
  intros E R. apply clos_rt_rtn1 in R.
  induction R as [| y z Eyz R IH].
  - now apply t_step.
  - eapply t_trans; [exact IH | now apply t_step].
Qed.

Lemma edge_reach_cycle g a b :
  edge g a b -> reach g b a -> on_cycle g a.
Proof. apply edge_reach_trans. Qed.

Lemma lengths_mono m m' deps ls :
  memo_mono m m' -> lengths m deps ls -> lengths m' deps ls.
Proof.
  intros Mo L. induction L as [| d v deps ls H L IH]; constructor; auto.
Qed.

Lemma cpl_eqn_mono g m m' k n :
  same_graph g m -> same_graph g m' -> memo_mono m m' ->
  cpl_eqn m k n -> cpl_eqn m' k n.
Proof.
  unfold cpl_eqn. intros G G' Mo.
  rewrite (same_graph_dependents g m k G), (same_graph_dependents g m' k G').
  destruct (dependents_of g k) as [| d ds]; [auto |].
  intros (x & ls & L & E). exists x, ls. split; [| exact E].
  now apply (lengths_mono m m').
Qed.

Section CriticalPaths.
Variable g : registry.

Lemma calc_forEach_spec recurse deps : forall acc m,
  (forall d m0, In d deps -> same_graph g m0 -> calc_post g m0 d (recurse d m0)) ->
  same_graph g m ->
  exists m1 ls,
    calc_forEach recurse deps m acc = (m1, Return (acc ++ ls))
    /\ same_graph g m1
    /\ memo_mono m m1
    /\ (memo_ok m -> memo_ok m1)
    /\ lengths m1 deps ls
    /\ (forall k, (forall d, In d deps -> ~ reach g d k) -> cpl_of m1 k = cpl_of m k).
Proof.
  induction deps as [| d rest IH]; intros acc m Hrec G; simpl.
  - exists m, []. rewrite app_nil_r. repeat split; auto.
    + intros k v H. exact H.
    + constructor.
  - destruct (Hrec d m (or_introl eq_refl) G)
      as (m1 & n & -> & G1 & Hn & Mo1 & Ok1 & Un1).
    destruct (IH (acc ++ [n]) m1) as (m2 & ls & E & G2 & Mo2 & Ok2 & L & Un2).
    { intros d0 m0 Hd. apply Hrec. now right. }
    { exact G1. }
    exists m2, (n :: ls). rewrite E, <- app_assoc. simpl.
    split; [reflexivity |]. split; [exact G2 |].
    split; [intros k v H; now apply Mo2, Mo1 |].
    split; [auto |].
    split; [constructor; [now apply Mo2 | exact L] |].
    intros k Hk. rewrite Un2, Un1; [reflexivity | |].
    + apply Hk. now left.
    + intros d0 Hd. apply Hk. now right.
Qed.

Hypothesis g_acyclic : acyclic g.
Hypothesis g_closed : forall a b, In b (dependents_of g a) -> In b (keys g).

Lemma calc_spec fuel : forall task m p,
  same_graph g m ->
  is_path g (p ++ [task]) -> NoDup (p ++ [task]) -> incl (p ++ [task]) (keys g) ->
  length (keys g) <= fuel + length p ->
  calc_post g m task (_calculateCriticalPaths fuel task m).
Proof.
  induction fuel as [| fuel IHf]; intros task m p G P ND Hin Hlen.
  - exfalso. apply NoDup_incl_length in Hin; [| exact ND].
    rewrite length_app in Hin. simpl in *. lia.
  - assert (Hreg : In task (keys m)).
    { rewrite <- (same_graph_keys g m G). apply Hin, in_app_iff. right. now left. }
    destruct (proj2 (map_get_keys task m) Hreg) as [t Hget].
    assert (Hhas : map_has task m = true) by now apply map_has_keys.
    assert (Hdeps : dependents t = dependents_of g task).
    { rewrite <- (same_graph_dependents g m task G). unfold dependents_of.
      now rewrite Hget. }
    assert (Hcp : cpl_of m task = criticalPathLength t)
      by (unfold cpl_of; now rewrite Hget).
    simpl. rewrite Hget.
    destruct (criticalPathLength t) as [n |] eqn:Ecpl.
    + exists m, n. repeat split; auto. intros k v H. exact H.
    + destruct (dependents t) as [| d ds] eqn:Ed.
      * set (m' := update task (set_criticalPathLength 0) m).
        assert (G' : same_graph g m')
          by (eapply same_graph_trans; [exact G | apply same_graph_set_cpl]).
        assert (Mo : memo_mono m m').
        { intros k v H. unfold m'. rewrite cpl_of_set_cpl.
          destruct (String.eqb task k) eqn:E; [| exact H].
          apply String.eqb_eq in E. subst k. congruence. }
        exists m', 0%Z. split; [reflexivity |]. split; [exact G' |].
        split; [unfold m'; now rewrite cpl_of_set_cpl, String.eqb_refl, Hhas |].
        split; [exact Mo |]. split.
        { intros Ok k n H. unfold m' in H. rewrite cpl_of_set_cpl in H.
          destruct (String.eqb task k) eqn:E.
          - apply String.eqb_eq in E. subst k. rewrite Hhas in H. injection H as <-.
            unfold cpl_eqn. rewrite (same_graph_dependents g m' task G'), <- Hdeps.
            reflexivity.
          - apply (cpl_eqn_mono g m m'); auto. }
        intros k Hk. unfold m'. rewrite cpl_of_set_cpl.
        destruct (String.eqb task k) eqn:E; [| reflexivity].
        apply String.eqb_eq in E. subst k. exfalso. apply Hk. apply rt_refl.
      * assert (Hedge : forall d0, In d0 (d :: ds) -> edge g task d0)
          by (intros d0 H0; unfold edge; now rewrite <- Hdeps).
        destruct (calc_forEach_spec (_calculateCriticalPaths fuel) (d :: ds) [] m)
          as (m1 & ls & E & G1 & Mo1 & Ok1 & L & Un1); [| exact G |].
        { intros d0 m0 H0 G0. apply (IHf d0 m0 (p ++ [task])); auto.
          - apply is_path_snoc; [exact P |].
            intros pre u Eq. apply app_inj_tail in Eq. destruct Eq as [_ <-]. auto.
          - apply NoDup_app; [exact ND | constructor; [intros [] | constructor] |].
            intros x Hx [<- | []].
            destruct (in_split _ _ Hx) as (pre & cyc & Es).
            apply (g_acyclic d0).
            assert (P' : is_path g ((p ++ [task]) ++ [d0])).
            { apply is_path_snoc; [exact P |].
              intros pre' u Eq. apply app_inj_tail in Eq. destruct Eq as [_ <-]. auto. }
            rewrite Es, <- app_assoc in P'. apply is_path_app_inv in P'.
            now apply is_path_clos_trans in P'.
          - apply incl_app; [exact Hin |]. intros x [<- | []].
            apply (g_closed task). now apply Hedge.
          - rewrite length_app. simpl. lia. }
        rewrite E. simpl.
        inversion L as [| d' x ds' l Hx Hl]; subst.
        set (n := (Math_max x l + 1)%Z).
        set (m' := update task (set_criticalPathLength n) m1).
        assert (G' : same_graph g m')
          by (eapply same_graph_trans; [exact G1 | apply same_graph_set_cpl]).
        assert (Hnone : cpl_of m1 task = None).
        { rewrite Un1; [congruence |]. intros d0 H0 R.
          apply (g_acyclic task). apply (edge_reach_cycle g task d0); auto. }
        assert (Mo' : memo_mono m1 m').
        { intros k v H. unfold m'. rewrite cpl_of_set_cpl.
          destruct (String.eqb task k) eqn:Ek; [| exact H].
          apply String.eqb_eq in Ek. subst k. congruence. }
        assert (Hhas1 : map_has task m1 = true).
        { apply map_has_keys. rewrite <- (same_graph_keys g m1 G1).
          apply Hin, in_app_iff. right. now left. }
        exists m', n. split; [reflexivity |]. split; [exact G' |].
        split; [unfold m'; now rewrite cpl_of_set_cpl, String.eqb_refl, Hhas1 |].
        split; [intros k v H; now apply Mo', Mo1 |]. split.
        { intros Ok k n0 H. specialize (Ok1 Ok). unfold m' in H.
          rewrite cpl_of_set_cpl in H.
          destruct (String.eqb task k) eqn:Ek.
          - apply String.eqb_eq in Ek. subst k. rewrite Hhas1 in H. injection H as <-.
            unfold cpl_eqn. rewrite (same_graph_dependents g m' task G'), <- Hdeps.
            exists x, l. split; [| reflexivity].
            apply (lengths_mono m1 m'); [exact Mo' | now constructor].
          - apply (cpl_eqn_mono g m1 m'); auto. }
        intros k Hk. unfold m'. rewrite cpl_of_set_cpl.
        destruct (String.eqb task k) eqn:Ek.
        { apply String.eqb_eq in Ek. subst k. exfalso. apply Hk. apply rt_refl. }
        apply Un1. intros d0 H0 R. apply Hk.
        eapply rt_trans; [apply rt_step, Hedge; exact H0 | exact R].
Qed.
End CriticalPaths.

Lemma check_return_acyclic m checked :
  (forall a b, In b (dependents_of m a) -> In b (keys m)) ->
  _checkForCyclicDependencies (budget m) m (keys m) [] [] = Return checked ->
  acyclic m.
Proof.
  intros closed E. pose proof (check_top m closed) as H. rewrite E in H.
  destruct H as (_ & F & Inv). intros a C.
  destruct (in_dec string_dec a (keys m)) as [Ha | Ha].
  - now apply (Inv a (F a Ha)).
  - now apply (unregistered_not_on_cycle m a).
Qed.

(** The [forEach] over the registry: every task ends with a length. *)
Lemma calculateAll_spec g fuel :
  acyclic g -> (forall a b, In b (dependents_of g a) -> In b (keys g)) ->
  length (keys g) <= fuel ->
  forall tasks m,
    same_graph g m -> incl tasks (keys g) ->
    exists m',
      calculateAll fuel tasks m = (m', Return tt)
      /\ same_graph g m'
      /\ memo_mono m m'
      /\ (memo_ok m -> memo_ok m')
      /\ (forall t, In t tasks -> exists n, cpl_of m' t = Some n).
Proof.
  intros A closed Hlen. induction tasks as [| t rest IH]; intros m G Hin; simpl.
  - exists m. repeat split; auto; [intros k v H; exact H | intros t []].
  - destruct (calc_spec g A closed fuel t m [] G)
      as (m1 & n & E & G1 & Hn & Mo1 & Ok1 & _).
    + exact I.
    + constructor; [intros [] | constructor].
    + intros x [<- | []]. apply Hin. now left.
    + simpl. lia.
    + simpl in E. rewrite E.
      destruct (IH m1 G1) as (m2 & E2 & G2 & Mo2 & Ok2 & D2).
      { intros x Hx. apply Hin. now right. }
      exists m2. split; [exact E2 |]. split; [exact G2 |].
      split; [intros k v H; now apply Mo2, Mo1 |]. split; [auto |].
      intros x [<- | Hx]; [exists n; now apply Mo2 | now apply D2].
Qed.

(** The calculation writes nothing but lengths, whatever the graph and the
    budget. *)
Lemma calc_forEach_frame recurse :
  (forall d m, same_graph m (fst (recurse d m))) ->
  forall deps m acc, same_graph m (fst (calc_forEach recurse deps m acc)).
Proof.
  intros Hrec. induction deps as [| d rest IH]; intros m acc; simpl.
  - apply same_graph_refl.
  - pose proof (Hrec d m) as H. destruct (recurse d m) as [m1 [n | e |]]; simpl in *; auto.
    eapply same_graph_trans; [exact H | apply IH].
Qed.

Lemma calc_frame fuel : forall task m,
  same_graph m (fst (_calculateCriticalPaths fuel task m)).
Proof.
  induction fuel as [| fuel IH]; intros task m; simpl; [apply same_graph_refl |].
  destruct (map_get task m) as [t |]; [| apply same_graph_refl].
  destruct (criticalPathLength t); [apply same_graph_refl |].
  destruct (dependents t) as [| d ds]; [apply same_graph_set_cpl |].
  pose proof (calc_forEach_frame (_calculateCriticalPaths fuel) IH (d :: ds) m []) as H.
  destruct (calc_forEach (_calculateCriticalPaths fuel) (d :: ds) m [])
    as [m1 [[| x l] | e |]]; simpl in *; auto.
  eapply same_graph_trans; [exact H | apply same_graph_set_cpl].
Qed.

Lemma calculateAll_frame fuel : forall tasks m,
  same_graph m (fst (calculateAll fuel tasks m)).
Proof.
  induction tasks as [| t rest IH]; intros m; simpl; [apply same_graph_refl |].
  pose proof (calc_frame fuel t m) as H.
  destruct (_calculateCriticalPaths fuel t m) as [m1 [n | e |]]; simpl in *; auto.
  eapply same_graph_trans; [exact H | apply IH].
Qed.

Lemma getOrderedTasks_frame c :
  same_graph (_tasks c) (_tasks (fst (getOrderedTasks c)))
  /\ _quietMode (fst (getOrderedTasks c)) = _quietMode c
  /\ _terminal (fst (getOrderedTasks c)) = _terminal c.
Proof.
  unfold getOrderedTasks, getOrderedTasks_with.
  destruct (_checkForCyclicDependencies _ _ _ _ _); simpl;
    try (split; [apply same_graph_refl | split; reflexivity]).
  pose proof (calculateAll_frame (budget (_tasks c)) (keys (_tasks c)) (_tasks c)) as H.
  destruct (calculateAll _ _ _) as [m1 [u | e |]]; simpl in *;
    (split; [exact H | split; reflexivity]).
Qed.

(** ** The sort *)

Lemma sortBy_insert_perm key x l : Permutation (x :: l) (sortBy_insert key x l).
Proof.
  induction l as [| y r IH]; simpl; [apply Permutation_refl |].
  destruct (key_leb (key x) (key y)); [apply Permutation_refl |].
  eapply perm_trans; [apply perm_swap | now apply perm_skip].
Qed.

Lemma sortBy_perm key l : Permutation l (sortBy l key).
Proof.
  induction l as [| x r IH]; simpl; [constructor |].
  eapply perm_trans; [apply perm_skip; exact IH | apply sortBy_insert_perm].
Qed.

Lemma key_leb_cpl_ge a b :
  key_leb (sort_key a) (sort_key b) = true -> cpl_ge a b.
Proof.
  unfold key_leb, sort_key, cpl_ge.
  destruct (criticalPathLength a) as [x |], (criticalPathLength b) as [y |];
    try discriminate.
  intros H. apply Z.leb_le in H. exists x, y. repeat split. lia.
Qed.

Lemma key_leb_false a b :
  cpl_defined a -> cpl_defined b ->
  key_leb (sort_key a) (sort_key b) = false -> cpl_ge b a.
Proof.
  unfold key_leb, sort_key, cpl_ge, cpl_defined.
  destruct (criticalPathLength a) as [x |], (criticalPathLength b) as [y |];
    try congruence.
  intros _ _ H. apply Z.leb_gt in H. exists y, x. repeat split. lia.
Qed.

Lemma cpl_ge_trans a b c : cpl_ge a b -> cpl_ge b c -> cpl_ge a c.
Proof.
  intros (x & y & Hx & Hy & L) (y' & z & Hy' & Hz & L').
  exists x, z. repeat split; auto. rewrite Hy in Hy'. injection Hy' as <-. lia.
Qed.

Lemma sortBy_insert_sorted x l :
  cpl_defined x -> Forall cpl_defined l ->
  StronglySorted cpl_ge l -> StronglySorted cpl_ge (sortBy_insert sort_key x l).
Proof.
  intros Dx Dl S. induction S as [| y r S IH F]; simpl.
  - constructor; constructor.
  - inversion Dl as [| ? ? Dy Dr]; subst.
    destruct (key_leb (sort_key x) (sort_key y)) eqn:E.
    + apply key_leb_cpl_ge in E. constructor; [now constructor |].
      constructor; [exact E |].
      eapply Forall_impl; [| exact F]. intros z Hz. now apply (cpl_ge_trans x y z).
    + apply key_leb_false in E; auto. constructor; [now apply IH |].
      apply (Permutation_Forall (sortBy_insert_perm sort_key x r)). now constructor.
Qed.

Lemma sortBy_sorted l :
  Forall cpl_defined l -> StronglySorted cpl_ge (sortBy l sort_key).
Proof.
  induction l as [| x r IH]; intros D; simpl; [constructor |].
  inversion D as [| ? ? Dx Dr]; subst.
  apply sortBy_insert_sorted; auto.
  apply (Permutation_Forall (sortBy_perm sort_key r)). exact Dr.
Qed.

(** Stability: the tasks of any one length keep their order. *)
Lemma sortBy_insert_stable n x l :
  filter (has_cpl n) (sortBy_insert sort_key x l) = filter (has_cpl n) (x :: l).
Proof.
  induction l as [| y r IH]; simpl; [reflexivity |].
  destruct (key_leb (sort_key x) (sort_key y)) eqn:E; [reflexivity |].
  simpl in *. rewrite IH.
  destruct (has_cpl n x) eqn:Hx; [| reflexivity].
  destruct (has_cpl n y) eqn:Hy; [| reflexivity].
  exfalso. unfold has_cpl, key_leb, sort_key in *.
  destruct (criticalPathLength x), (criticalPathLength y); try discriminate.
  apply Z.eqb_eq in Hx, Hy. subst. apply Z.leb_gt in E. lia.
Qed.

Lemma sortBy_stable n l :
  filter (has_cpl n) (sortBy l sort_key) = filter (has_cpl n) l.
Proof.
  induction l as [| x r IH]; simpl; [reflexivity |].
  rewrite sortBy_insert_stable. simpl. now rewrite IH.
Qed.

(** ** The registry operations and the invariants *)

Lemma map_set_fresh k t m : map_has k m = false -> map_set k t m = m ++ [(k, t)].
Proof.
  unfold map_has. induction m as [| [k0 t0] m IH]; simpl; [reflexivity |].
  destruct (String.eqb k k0); [discriminate |]. intros H. now rewrite IH.
Qed.

Lemma map_get_app k m k0 t0 :
  map_get k (m ++ [(k0, t0)])
  = match map_get k m with
    | Some t => Some t
    | None => if String.eqb k k0 then Some t0 else None
    end.
Proof.
  induction m as [| [k1 t1] m IH]; simpl; [reflexivity |].
  destruct (String.eqb k k1); [reflexivity | exact IH].
Qed.

Lemma dependents_of_update_dependency m k d x :
  dependents_of (update k (add_dependency d) m) x = dependents_of m x.
Proof.
  unfold dependents_of. rewrite map_get_update.
  destruct (String.eqb k x), (map_get x m); reflexivity.
Qed.

Lemma dependencies_of_update_dependent m k d x :
  dependencies_of (update k (add_dependent d) m) x = dependencies_of m x.
Proof.
  unfold dependencies_of. rewrite map_get_update.
  destruct (String.eqb k x), (map_get x m); reflexivity.
Qed.

Lemma dependents_of_update_dependent m k n x :
  In k (keys m) ->
  dependents_of (update k (add_dependent n) m) x
  = if String.eqb k x then set_add n (dependents_of m x) else dependents_of m x.
Proof.
  intros Hk. unfold dependents_of. rewrite map_get_update.
  destruct (String.eqb k x) eqn:E; [| reflexivity].
  apply String.eqb_eq in E. subst x. apply map_get_keys in Hk.
  destruct Hk as [t ->]. reflexivity.
Qed.

Lemma dependencies_of_update_dependency m k d x :
  In k (keys m) ->
  dependencies_of (update k (add_dependency d) m) x
  = if String.eqb k x then set_add d (dependencies_of m x) else dependencies_of m x.
Proof.
  intros Hk. unfold dependencies_of. rewrite map_get_update.
  destruct (String.eqb k x) eqn:E; [| reflexivity].
  apply String.eqb_eq in E. subst x. apply map_get_keys in Hk.
  destruct Hk as [t ->]. reflexivity.
Qed.

Lemma cpl_of_update_edge m k f x :
  (forall t, criticalPathLength (f t) = criticalPathLength t) ->
  cpl_of (update k f m) x = cpl_of m x.
Proof.
  intros Hf. unfold cpl_of. rewrite map_get_update.
  destruct (String.eqb k x), (map_get x m); simpl; auto.
Qed.

Lemma keys_add_edge n d m : keys (add_edge n d m) = keys m.
Proof. unfold add_edge. now rewrite !keys_update. Qed.

Lemma dependents_of_add_edge n d m x :
  In d (keys m) ->
  dependents_of (add_edge n d m) x
  = if String.eqb d x then set_add n (dependents_of m x) else dependents_of m x.
Proof.
  intros Hd. unfold add_edge. rewrite dependents_of_update_dependent.
  - now rewrite !dependents_of_update_dependency.
  - now rewrite keys_update.
Qed.

Lemma dependencies_of_add_edge n d m x :
  In n (keys m) ->
  dependencies_of (add_edge n d m) x
  = if String.eqb n x then set_add d (dependencies_of m x) else dependencies_of m x.
Proof.
  intros Hn. unfold add_edge. rewrite dependencies_of_update_dependent.
  now apply dependencies_of_update_dependency.
Qed.

Lemma cpl_of_add_edge n d m x : cpl_of (add_edge n d m) x = cpl_of m x.
Proof.
  unfold add_edge. rewrite !cpl_of_update_edge; reflexivity.
Qed.

Lemma wf_new : wf [].
Proof.
  split; simpl.
  - constructor.
  - intros a b [].
  - intros a b. split; intros [].
Qed.

Lemma wf_add_edge n d m :
  In n (keys m) -> In d (keys m) -> wf m -> wf (add_edge n d m).
Proof.
  intros Hn Hd [K C I]. split.
  - now rewrite keys_add_edge.
  - intros a b. rewrite keys_add_edge, dependents_of_add_edge by exact Hd.
    destruct (String.eqb d a); [| apply C].
    rewrite set_add_In. intros [-> | H]; [exact Hn | now apply (C a)].
  - intros a b.
    rewrite dependencies_of_add_edge by exact Hn.
    rewrite dependents_of_add_edge by exact Hd.
    destruct (String.eqb_spec n a) as [Ea | Ea], (String.eqb_spec d b) as [Eb | Eb];
      rewrite ?set_add_In, (I a b); subst; intuition congruence.
Qed.

Lemma addDependencies_loop_cons n d rest m :
  addDependencies_loop n (d :: rest) m
  = if map_has d m then addDependencies_loop n rest (add_edge n d m)
    else (m, Throw (ProjectNotRegistered d)).
Proof. simpl. now destruct (map_has d m). Qed.

Lemma addDependencies_loop_wf n : forall deps m,
  In n (keys m) -> wf m -> wf (fst (addDependencies_loop n deps m)).
Proof.
  induction deps as [| d rest IH]; intros m Hn W; [exact W |].
  rewrite addDependencies_loop_cons.
  destruct (map_has d m) eqn:E; [| exact W].
  apply map_has_keys in E. apply IH.
  - now rewrite keys_add_edge.
  - now apply wf_add_edge.
Qed.

Lemma addDependencies_wf n deps c :
  wf (_tasks c) -> wf (_tasks (fst (addDependencies n deps c))).
Proof.
  intros W. unfold addDependencies.
  destruct (map_get n (_tasks c)) as [t |] eqn:E; [| exact W].
  destruct deps as [deps |]; [| exact W].
  pose proof (addDependencies_loop_wf n deps (_tasks c)) as H.
  destruct (addDependencies_loop n deps (_tasks c)) as [m r]. simpl in *.
  apply H; [| exact W]. apply map_get_keys. eauto.
Qed.

Lemma graph_of_fresh m k x :
  ~ In k (keys m) ->
  dependents_of (m ++ [(k, mkTask k [] [] Ready None)]) x = dependents_of m x
  /\ dependencies_of (m ++ [(k, mkTask k [] [] Ready None)]) x = dependencies_of m x
  /\ cpl_of (m ++ [(k, mkTask k [] [] Ready None)]) x = cpl_of m x.
Proof.
  intros Hk. unfold dependents_of, dependencies_of, cpl_of. rewrite map_get_app.
  destruct (map_get x m); [auto |]. destruct (String.eqb x k); auto.
Qed.

Lemma addTask_tasks d c :
  map_has (def_name d) (_tasks c) = false ->
  _tasks (fst (addTask d c))
  = _tasks c ++ [(def_name d, mkTask (def_name d) [] [] Ready None)]
  /\ snd (addTask d c) = Return tt.
Proof.
  intros H. unfold addTask. rewrite H. simpl. rewrite map_set_fresh by exact H.
  now destruct (_quietMode c).
Qed.

Lemma addTask_wf d c : wf (_tasks c) -> wf (_tasks (fst (addTask d c))).
Proof.
  intros W. destruct (map_has (def_name d) (_tasks c)) eqn:E.
  - unfold addTask. now rewrite E.
  - destruct (addTask_tasks d c E) as [-> _].
    assert (N : ~ In (def_name d) (keys (_tasks c))).
    { rewrite <- map_has_keys. congruence. }
    destruct W as [K C I]. split.
    + unfold keys. rewrite map_app. simpl.
      apply NoDup_app; [exact K | constructor; [intros [] | constructor] |].
      intros x Hx [<- | []]. contradiction.
    + intros a b. destruct (graph_of_fresh (_tasks c) (def_name d) a N) as (-> & _).
      intros H. unfold keys. rewrite map_app. apply in_app_iff. left. now apply (C a).
    + intros a b.
      destruct (graph_of_fresh (_tasks c) (def_name d) a N) as (_ & -> & _).
      destruct (graph_of_fresh (_tasks c) (def_name d) b N) as (-> & _).
      apply I.
Qed.

Lemma wf_same_graph m m' : same_graph m m' -> wf m -> wf m'.
Proof.
  intros G [K C I]. split.
  - now rewrite <- (same_graph_keys m m' G).
  - intros a b. rewrite <- (same_graph_keys m m' G), (same_graph_dependents m m' a G).
    apply C.
  - intros a b.
    rewrite (same_graph_dependencies m m' a G), (same_graph_dependents m m' b G).
    apply I.
Qed.

Lemma getOrderedTasks_wf c :
  wf (_tasks c) -> wf (_tasks (fst (getOrderedTasks c))).
Proof.
  apply wf_same_graph. apply getOrderedTasks_frame.
Qed.

Lemma after_call_wf c o : wf (_tasks c) -> wf (_tasks (after_call c o)).
Proof.
  destruct o; simpl.
  - apply addTask_wf.
  - auto.
  - apply addDependencies_wf.
  - apply getOrderedTasks_wf.
Qed.

(** Every collection the interface can produce is well formed. *)
Lemma after_calls_wf q l : wf (_tasks (after_calls q l)).
Proof.
  unfold after_calls.
  assert (H : forall c, wf (_tasks c) -> wf (_tasks (fold_left after_call l c))).
  { induction l as [| o l IH]; intros c W; simpl; [exact W |].
    apply IH. now apply after_call_wf. }
  apply H. apply wf_new.
Qed.

(** Entry-wise invariants survive a field write that respects them. *)
Lemma Forall_update (P : string * ITask -> Prop) k f m :
  (forall e, P e -> P (fst e, f (snd e))) -> Forall P m -> Forall P (update k f m).
Proof.
  intros Hf H. unfold update. apply Forall_map.
  eapply Forall_impl; [| exact H]. intros [k0 t0] He. simpl.
  destruct (String.eqb k k0); [now apply (Hf (k0, t0)) | exact He].
Qed.

Lemma Forall_add_edge (P : string * ITask -> Prop) n d m :
  (forall e x, P e -> P (fst e, add_dependency x (snd e))) ->
  (forall e x, P e -> P (fst e, add_dependent x (snd e))) ->
  Forall P m -> Forall P (add_edge n d m).
Proof.
  intros H1 H2 H. unfold add_edge. apply Forall_update; [intros e; apply H2 |].
  apply Forall_update; [intros e; apply H1 | exact H].
Qed.

Lemma Forall_addDependencies_loop (P : string * ITask -> Prop) n :
  (forall e x, P e -> P (fst e, add_dependency x (snd e))) ->
  (forall e x, P e -> P (fst e, add_dependent x (snd e))) ->
  forall deps m, Forall P m -> Forall P (fst (addDependencies_loop n deps m)).
Proof.
  intros H1 H2. induction deps as [| d rest IH]; intros m H; [exact H |].
  rewrite addDependencies_loop_cons. destruct (map_has d m); [| exact H].
  apply IH. now apply Forall_add_edge.
Qed.

Lemma built_invariants c :
  built c ->
  wf (_tasks c) /\ Forall named (_tasks c) /\ Forall unmemoized (_tasks c).
Proof.
  induction 1 as [q | c d c' B IH E | c n deps c' B IH E].
  - split; [apply wf_new | split; constructor].
  - destruct IH as (W & N & U).
    split; [replace c' with (fst (addTask d c)) by (now rewrite E); now apply addTask_wf |].
    destruct (map_has (def_name d) (_tasks c)) eqn:Eh.
    { unfold addTask in E. rewrite Eh in E. discriminate. }
    destruct (addTask_tasks d c Eh) as [Et _]. rewrite E in Et. simpl in Et.
    rewrite Et. split; apply Forall_app; (split; [assumption | now repeat constructor]).
  - destruct IH as (W & N & U).
    split; [replace c' with (fst (addDependencies n (Some deps) c)) by (now rewrite E);
            now apply addDependencies_wf |].
    unfold addDependencies in E. destruct (map_get n (_tasks c)); [| discriminate].
    pose proof (Forall_addDependencies_loop named n) as HN.
    pose proof (Forall_addDependencies_loop unmemoized n) as HU.
    specialize (HN (fun e x H => H) (fun e x H => H) deps (_tasks c) N).
    specialize (HU (fun e x H => H) (fun e x H => H) deps (_tasks c) U).
    destruct (addDependencies_loop n deps (_tasks c)) as [m r].
    injection E as <- _. simpl in *. auto.
Qed.

Lemma unmemoized_cpl_of m k : Forall unmemoized m -> cpl_of m k = None.
Proof.
  intros U. unfold cpl_of. destruct (map_get k m) as [t |] eqn:E; [| reflexivity].
  apply map_get_In in E. rewrite Forall_forall in U. exact (U _ E).
Qed.

Lemma unmemoized_memo_ok m : Forall unmemoized m -> memo_ok m.
Proof.
  intros U k n H. rewrite (unmemoized_cpl_of m k U) in H. discriminate.
Qed.

Lemma same_graph_names m m' :
  same_graph m m' -> map name (values m) = map name (values m').
Proof.
  unfold same_graph, values. intros H.
  apply (f_equal (map (fun e => name (snd e)))) in H.
  rewrite !map_map in H. rewrite !map_map. exact H.
Qed.

Lemma named_keys m : Forall named m -> map name (values m) = keys m.
Proof.
  unfold values, keys. rewrite map_map. intros H.
  apply map_ext_in. intros e He. rewrite Forall_forall in H. exact (H e He).
Qed.

(** With unique keys the stored tasks are the ones the keys lead to. *)
Lemma cpl_defined_values m :
  NoDup (keys m) ->
  (forall k, In k (keys m) -> exists n, cpl_of m k = Some n) ->
  Forall cpl_defined (values m).
Proof.
  intros ND H. unfold values. apply Forall_map. apply Forall_forall.
  intros [k t] He. simpl. unfold cpl_defined.
  destruct (H k) as [n Hn].
  - change k with (fst (k, t)). now apply in_map.
  - unfold cpl_of in Hn. rewrite (In_map_get k t m ND He) in Hn. congruence.
Qed.

(** The full account of a successful [getOrderedTasks]. *)
Lemma getOrderedTasks_with_return sort c c' q :
  wf (_tasks c) ->
  getOrderedTasks_with sort c = (c', Return q) ->
  acyclic (_tasks c)
  /\ same_graph (_tasks c) (_tasks c')
  /\ q = sort (values (_tasks c')) sort_key
  /\ memo_mono (_tasks c) (_tasks c')
  /\ (memo_ok (_tasks c) -> memo_ok (_tasks c'))
  /\ (forall k, In k (keys (_tasks c)) -> exists n, cpl_of (_tasks c') k = Some n).
Proof.
  intros W E. unfold getOrderedTasks_with in E.
  destruct (_checkForCyclicDependencies _ _ _ _ _) as [ck | e |] eqn:Ec;
    try discriminate.
  assert (A : acyclic (_tasks c))
    by (eapply check_return_acyclic; [apply W | exact Ec]).
  destruct (calculateAll_spec (_tasks c) (budget (_tasks c)) A (wf_closed _ W))
    with (tasks := keys (_tasks c)) (m := _tasks c)
    as (m' & Ea & G & Mo & Ok & D).
  - rewrite length_keys. unfold budget. lia.
  - apply same_graph_refl.
  - apply incl_refl.
  - rewrite Ea in E. injection E as <- <-. simpl. repeat split; auto.
Qed.

Lemma getOrderedTasks_return c c' q :
  wf (_tasks c) ->
  getOrderedTasks c = (c', Return q) ->
  acyclic (_tasks c)
  /\ same_graph (_tasks c) (_tasks c')
  /\ q = sortBy (values (_tasks c')) sort_key
  /\ memo_mono (_tasks c) (_tasks c')
  /\ (memo_ok (_tasks c) -> memo_ok (_tasks c'))
  /\ (forall k, In k (keys (_tasks c)) -> exists n, cpl_of (_tasks c') k = Some n).
Proof. apply getOrderedTasks_with_return. Qed.

(** On a well-formed acyclic registry the call returns. *)
Lemma getOrderedTasks_with_acyclic sort c :
  wf (_tasks c) -> acyclic (_tasks c) ->
  exists c' q, getOrderedTasks_with sort c = (c', Return q).
Proof.
  intros W A. unfold getOrderedTasks_with.
  destruct (check_acyclic (_tasks c) (wf_closed _ W) A) as [ck ->].
  destruct (calculateAll_spec (_tasks c) (budget (_tasks c)) A (wf_closed _ W))
    with (tasks := keys (_tasks c)) (m := _tasks c)
    as (m' & Ea & _).
  - rewrite length_keys. unfold budget. lia.
  - apply same_graph_refl.
  - apply incl_refl.
  - rewrite Ea. eauto.
Qed.

(** On a well-formed registry with a cycle the call throws the chain of the
    walk that closed a cycle, and writes nothing. *)
Lemma getOrderedTasks_cyclic c a :
  wf (_tasks c) -> on_cycle (_tasks c) a ->
  exists pre t cyc,
    getOrderedTasks c = (c, Throw (CyclicDependency (rev (pre ++ t :: cyc ++ [t]))))
    /\ is_path (_tasks c) (pre ++ t :: cyc ++ [t])
    /\ NoDup (pre ++ t :: cyc).
Proof.
  intros W C.
  destruct (check_cyclic (_tasks c) (wf_closed _ W)) as (pre & t & cyc & E & P & ND).
  - intros A. exact (A a C).
  - exists pre, t, cyc. unfold getOrderedTasks, getOrderedTasks_with. rewrite E. auto.
Qed.

(** ** The maximum *)

Lemma Math_max_ge_init l : forall x, (x <= Math_max x l)%Z.
Proof.
  unfold Math_max. induction l as [| y l IH]; intros x; simpl; [lia |].
  specialize (IH (Z.max x y)). lia.
Qed.

Lemma Math_max_ge l : forall x v, In v l -> (v <= Math_max x l)%Z.
Proof.
  unfold Math_max. induction l as [| y l IH]; intros x v []; simpl.
  - subst. pose proof (Math_max_ge_init l (Z.max x v)) as H. unfold Math_max in H. lia.
  - now apply IH.
Qed.

Lemma Math_max_In l : forall x, In (Math_max x l) (x :: l).
Proof.
  unfold Math_max. induction l as [| y l IH]; intros x; simpl; [now left |].
  destruct (IH (Z.max x y)) as [H | H]; [| right; right; exact H].
  destruct (Z.max_spec x y) as [[_ E] | [_ E]]; rewrite E in *;
    [right; left; exact H | left; exact H].
Qed.

Lemma lengths_In m deps ls d :
  lengths m deps ls -> In d deps -> exists v, In v ls /\ cpl_of m d = Some v.
Proof.
  induction 1 as [| d0 v0 deps ls H L IH]; intros []; subst.
  - exists v0. split; [now left | exact H].
  - destruct IH as (v & Hv & E); [assumption |]. exists v. split; [now right | exact E].
Qed.

Lemma lengths_In_r m deps ls v :
  lengths m deps ls -> In v ls -> exists d, In d deps /\ cpl_of m d = Some v.
Proof.
  induction 1 as [| d0 v0 deps ls H L IH]; intros []; subst.
  - exists d0. split; [now left | exact H].
  - destruct IH as (d & Hd & E); [assumption |]. exists d. split; [now right | exact E].
Qed.

Lemma cpl_eqn_equation m k n : cpl_eqn m k n -> critical_path_equation m k n.
Proof.
  unfold cpl_eqn, critical_path_equation.
  destruct (dependents_of m k) as [| d ds]; [auto |].
  intros (x & l & L & ->). split.
  - intros d0 H0. destruct (lengths_In _ _ _ d0 L H0) as (v & Hv & E).
    exists v. split; [exact E |].
    destruct Hv as [<- | Hv].
    + pose proof (Math_max_ge_init l x). lia.
    + pose proof (Math_max_ge l x v Hv). lia.
  - destruct (lengths_In_r _ _ _ (Math_max x l) L (Math_max_In l x)) as (d0 & H0 & E).
    exists d0. split; [exact H0 |]. rewrite E. f_equal. lia.
Qed.

(** ** Declaring the same edges again *)

Lemma update_id k f m :
  Forall (fun e => fst e = k -> f (snd e) = snd e) m -> update k f m = m.
Proof.
  intros H. unfold update. rewrite <- (map_id m) at 2. apply map_ext_in.
  intros [k0 t0] He. rewrite Forall_forall in H. specialize (H _ He). simpl in *.
  destruct (String.eqb_spec k k0) as [E | E]; [| reflexivity].
  now rewrite H.
Qed.

Lemma add_edge_absorb n d m : Forall (edge_present n d) m -> add_edge n d m = m.
Proof.
  intros H. unfold add_edge.
  rewrite (update_id n (add_dependency d) m).
  - apply update_id. eapply Forall_impl; [| exact H].
    intros [k t] [_ P] E. simpl in *. unfold add_dependent.
    rewrite set_add_present by auto. now destruct t.
  - eapply Forall_impl; [| exact H].
    intros [k t] [P _] E. simpl in *. unfold add_dependency.
    rewrite set_add_present by auto. now destruct t.
Qed.

Lemma add_edge_present n d m : Forall (edge_present n d) (add_edge n d m).
Proof.
  unfold add_edge, update. rewrite map_map. apply Forall_map, Forall_forall.
  intros [k t] _. simpl. unfold edge_present.
  destruct (String.eqb_spec n k) as [E1 | E1]; simpl;
    destruct (String.eqb_spec d k) as [E2 | E2]; simpl;
    split; intros E; try congruence; apply set_add_In; now left.
Qed.

Lemma edge_present_add_dependency n d x e :
  edge_present n d e -> edge_present n d (fst e, add_dependency x (snd e)).
Proof.
  intros [P Q]. split; simpl; intros E; [| now apply Q].
  apply set_add_In. right. now apply P.
Qed.

Lemma edge_present_add_dependent n d x e :
  edge_present n d e -> edge_present n d (fst e, add_dependent x (snd e)).
Proof.
  intros [P Q]. split; simpl; intros E; [now apply P |].
  apply set_add_In. right. now apply Q.
Qed.

Lemma map_has_add_edge n d m k : map_has k (add_edge n d m) = map_has k m.
Proof. unfold add_edge. now rewrite !map_has_update. Qed.

Lemma processed_ext deps m m' :
  (forall k, map_has k m' = map_has k m) -> processed deps m' = processed deps m.
Proof.
  intros H. induction deps as [| d rest IH]; simpl; [reflexivity |].
  rewrite H, IH. reflexivity.
Qed.

Lemma addDependencies_loop_has n : forall deps m k,
  map_has k (fst (addDependencies_loop n deps m)) = map_has k m.
Proof.
  induction deps as [| d rest IH]; intros m k; [reflexivity |].
  rewrite addDependencies_loop_cons. destruct (map_has d m); [| reflexivity].
  rewrite IH. apply map_has_add_edge.
Qed.

(** After the loop, the edges of the names it got through are present. *)
Lemma addDependencies_loop_present n : forall deps m,
  Forall (fun d => Forall (edge_present n d) (fst (addDependencies_loop n deps m)))
    (processed deps m).
Proof.
  induction deps as [| d rest IH]; intros m; simpl processed; [constructor |].
  rewrite addDependencies_loop_cons. destruct (map_has d m) eqn:E; [| constructor].
  constructor.
  - apply Forall_addDependencies_loop.
    + intros e x. apply edge_present_add_dependency.
    + intros e x. apply edge_present_add_dependent.
    + apply add_edge_present.
  - rewrite <- (processed_ext rest m (add_edge n d m)); [apply IH |].
    intros k. apply map_has_add_edge.
Qed.

(** The loop run on a registry that has those edges changes nothing and
    ends the same way. *)
Lemma addDependencies_loop_absorb n : forall deps m m2,
  (forall k, map_has k m2 = map_has k m) ->
  Forall (fun d => Forall (edge_present n d) m2) (processed deps m) ->
  addDependencies_loop n deps m2 = (m2, snd (addDependencies_loop n deps m)).
Proof.
  induction deps as [| d rest IH]; intros m m2 Hk Hp; [reflexivity |].
  rewrite !addDependencies_loop_cons. rewrite Hk. simpl in Hp.
  destruct (map_has d m); [| reflexivity].
  inversion Hp as [| ? ? Hd Hr]; subst.
  rewrite (add_edge_absorb n d m2 Hd). apply IH.
  - intros k. now rewrite map_has_add_edge.
  - rewrite (processed_ext rest m (add_edge n d m)); [exact Hr |].
    intros k. apply map_has_add_edge.
Qed.

Lemma addDependencies_loop_twice n deps m :
  addDependencies_loop n deps (fst (addDependencies_loop n deps m))
  = addDependencies_loop n deps m.
Proof.
  rewrite (addDependencies_loop_absorb n deps m).
  - now destruct (addDependencies_loop n deps m).
  - intros k. apply addDependencies_loop_has.
  - apply addDependencies_loop_present.
Qed.

Lemma addDependencies_loop_registered n : forall deps m,
  (forall d, In d deps -> map_has d m = true) ->
  snd (addDependencies_loop n deps m) = Return tt.
Proof.
  induction deps as [| d rest IH]; intros m H; [reflexivity |].
  rewrite addDependencies_loop_cons, (H d) by now left.
  apply IH. intros x Hx. rewrite map_has_add_edge. apply H. now right.
Qed.

(** The loop up to and at the first unregistered name. *)
Lemma addDependencies_loop_unregistered n d post : forall pre m,
  (forall x, In x pre -> map_has x m = true) -> map_has d m = false ->
  addDependencies_loop n (pre ++ d :: post) m
  = (fst (addDependencies_loop n pre m), Throw (ProjectNotRegistered d)).
Proof.
  induction pre as [| x pre IH]; intros m H Hd.
  - simpl. now rewrite Hd.
  - rewrite <- app_comm_cons, !addDependencies_loop_cons, (H x) by now left.
    apply IH; [| now rewrite map_has_add_edge].
    intros y Hy. rewrite map_has_add_edge. apply H. now right.
Qed.

Lemma is_path_app_l m l1 l2 : is_path m (l1 ++ l2) -> is_path m l1.
Proof.
  induction l1 as [| a l1 IH]; intros P; [exact I |].
  destruct l1 as [| b l1]; [exact I |].
  destruct P as [E P]. split; [exact E | now apply IH].
Qed.

(** Every name on a closed path lies on a cycle. *)
Lemma closed_path_on_cycle m t cyc x :
  is_path m (t :: cyc ++ [t]) -> In x (t :: cyc) -> on_cycle m x.
Proof.
  intros P Hx.
  assert (Ct : on_cycle m t) by now apply is_path_clos_trans in P.
  destruct Hx as [<- | Hx]; [exact Ct |].
  destruct (in_split _ _ Hx) as (l1 & l2 & ->).
  assert (Eq1 : t :: (l1 ++ x :: l2) ++ [t] = (t :: l1 ++ [x]) ++ (l2 ++ [t]))
    by (simpl; rewrite <- !app_assoc; reflexivity).
  assert (Eq2 : t :: (l1 ++ x :: l2) ++ [t] = (t :: l1) ++ (x :: l2 ++ [t]))
    by (simpl; rewrite <- !app_assoc; reflexivity).
  assert (P1 : is_path m (t :: l1 ++ [x])).
  { apply (is_path_app_l m (t :: l1 ++ [x]) (l2 ++ [t])). now rewrite <- Eq1. }
  assert (P2 : is_path m (x :: l2 ++ [t])).
  { apply (is_path_app_inv m (t :: l1)). now rewrite <- Eq2. }
  apply is_path_clos_trans in P1, P2. unfold on_cycle.
  eapply t_trans; eassumption.
Qed.

Lemma built_after_calls l : forall c,
  built c -> all_succeed c l = true -> built (fold_left after_call l c).
Proof.
  induction l as [| o l IH]; intros c B H; [exact B |].
  destruct o as [d | n | n [deps |] |]; simpl in H; try discriminate.
  - destruct (addTask d c) as [c' [[] | e |]] eqn:E; try discriminate.
    simpl. rewrite E. apply IH; [| exact H]. now apply (built_addTask c d).
  - destruct (addDependencies n (Some deps) c) as [c' [[] | e |]] eqn:E;
      try discriminate.
    simpl. rewrite E. apply IH; [| exact H].
    now apply (built_addDependencies c n deps).
Qed.

(** A registry on which the check returns is acyclic. *)
Lemma acyclic_by_check m :
  wf m ->
  (exists checked,
     _checkForCyclicDependencies (budget m) m (keys m) [] [] = Return checked) ->
  acyclic m.
Proof.
  intros W [ck E]. eapply check_return_acyclic; [apply W | exact E].
Qed.

(** ** The scenarios of the specification, run *)

Example scenario_chain_of_three :
  queue_summary (snd (getOrderedTasks chain_of_three))
  = [("A", Some 2%Z); ("B", Some 1%Z); ("C", Some 0%Z)].
Proof. reflexivity. Qed.

Example scenario_independent_tasks :
  queue_summary (snd (getOrderedTasks two_tasks))
  = [("A", Some 0%Z); ("B", Some 0%Z)].
Proof. reflexivity. Qed.

Example scenario_duplicate :
  snd (addTask (mkDefinition "A") two_tasks) = Throw DuplicateTask.
Proof. reflexivity. Qed.

Example scenario_two_cycle :
  snd (getOrderedTasks
         (after_calls true
            [call_addTask (mkDefinition "A"); call_addTask (mkDefinition "B");
             call_addDependencies "B" (Some ["A"]);
             call_addDependencies "A" (Some ["B"])]))
  = Throw (CyclicDependency ["A"; "B"; "A"]).
Proof. reflexivity. Qed.

Example cyclic_message_text :
  message (CyclicDependency ["A"; "C"; "B"; "A"; "D"])
  = ("A cyclic dependency was encountered:" ++ nl
     ++ "  A" ++ nl ++ "  -> C" ++ nl ++ "  -> B" ++ nl ++ "  -> A" ++ nl ++ "  -> D"
     ++ nl ++ "Consider using the cyclicDependencyProjects option for rush.json.")%string.
Proof. reflexivity. Qed.

(** ** The claims *)

(** C1.  On an acyclic graph built by successful [addTask] and
    [addDependencies] calls, [getOrderedTasks] returns (the recursion budget
    is not exhausted, nothing is thrown), and the queue it returns is a
    permutation of the values of the registry: the registered tasks, each
    once.  Of the library sort this takes only that it permutes the queue. *)
Theorem getOrderedTasks_permutation sort c :
  (forall l key, Permutation l (sort l key)) ->
  built c -> acyclic (_tasks c) ->
  exists c' q,
    getOrderedTasks_with sort c = (c', Return q)
    /\ Permutation q (values (_tasks c'))
    /\ NoDup (map name q)
    /\ Permutation (map name q) (keys (_tasks c)).
Proof.
  intros S B A. destruct (built_invariants c B) as (W & N & _).
  destruct (getOrderedTasks_with_acyclic sort c W A) as (c' & q & E).
  destruct (getOrderedTasks_with_return sort c c' q W E) as (_ & G & -> & _).
  exists c', (sort (values (_tasks c')) sort_key). split; [exact E |].
  assert (P : Permutation (sort (values (_tasks c')) sort_key) (values (_tasks c')))
    by apply Permutation_sym, S.
  assert (Pn : Permutation (map name (sort (values (_tasks c')) sort_key))
                 (keys (_tasks c))).
  { rewrite <- (named_keys _ N), (same_graph_names _ _ G). now apply Permutation_map. }
  split; [exact P |]. split; [| exact Pn].
  apply (Permutation_NoDup (Permutation_sym Pn)). apply W.
Qed.

Lemma getOrderedTasks_permutation_witness :
  (forall l key, Permutation l (sortBy l key))
  /\ built chain_of_three /\ acyclic (_tasks chain_of_three)
  /\ exists c' q,
       getOrderedTasks chain_of_three = (c', Return q)
       /\ Permutation q (values (_tasks c'))
       /\ NoDup (map name q)
       /\ Permutation (map name q) (keys (_tasks chain_of_three)).
Proof.
  assert (S : forall l key, Permutation l (sortBy l key))
    by (intros l key; apply sortBy_perm).
  assert (B : built chain_of_three).
  { apply built_after_calls; [apply built_new | vm_compute; reflexivity]. }
  assert (A : acyclic (_tasks chain_of_three)).
  { apply acyclic_by_check; [apply after_calls_wf |].
    eexists. vm_compute. reflexivity. }
  split; [exact S |]. split; [exact B |]. split; [exact A |].
  apply (getOrderedTasks_permutation sortBy chain_of_three S B A).
Defined.

(** C2, as amended.  After [getOrderedTasks] returns on a collection none of
    whose tasks had a length memoized before the call, every registered task
    has a [criticalPathLength]: 0 when it has no dependents, and otherwise
    one more than the largest length among its dependents. *)
Theorem critical_paths_of_first_order c c' q :
  wf (_tasks c) -> Forall unmemoized (_tasks c) ->
  getOrderedTasks c = (c', Return q) ->
  critical_paths (_tasks c').
Proof.
  intros W U E.
  destruct (getOrderedTasks_return c c' q W E) as (_ & G & _ & _ & Ok & D).
  intros k Hk. rewrite <- (same_graph_keys _ _ G) in Hk.
  destruct (D k Hk) as [n Hn]. exists n. split; [exact Hn |].
  apply cpl_eqn_equation. apply Ok; [now apply unmemoized_memo_ok | exact Hn].
Qed.

Lemma critical_paths_of_first_order_witness :
  wf (_tasks chain_of_three) /\ Forall unmemoized (_tasks chain_of_three)
  /\ getOrderedTasks chain_of_three
     = (fst (getOrderedTasks chain_of_three),
        Return (sortBy (values (_tasks (fst (getOrderedTasks chain_of_three)))) sort_key))
  /\ critical_paths (_tasks (fst (getOrderedTasks chain_of_three))).
Proof.
  assert (W : wf (_tasks chain_of_three)) by apply after_calls_wf.
  assert (U : Forall unmemoized (_tasks chain_of_three))
    by (vm_compute; repeat constructor).
  assert (E : getOrderedTasks chain_of_three
     = (fst (getOrderedTasks chain_of_three),
        Return (sortBy (values (_tasks (fst (getOrderedTasks chain_of_three)))) sort_key)))
    by (vm_compute; reflexivity).
  split; [exact W |]. split; [exact U |]. split; [exact E |].
  exact (critical_paths_of_first_order chain_of_three _ _ W U E).
Defined.

(** C2 as stated fails: with the lengths of an earlier call still memoized,
    a task that has gained a dependent since keeps its old length.  Here
    A has the dependent B and both end with length 0. *)
Lemma stale_memo_breaks_equation :
  acyclic (_tasks stale_memo)
  /\ (exists q, snd (getOrderedTasks stale_memo) = Return q)
  /\ ~ critical_paths (_tasks (fst (getOrderedTasks stale_memo))).
Proof.
  split; [| split].
  - apply acyclic_by_check; [apply after_calls_wf |].
    eexists. vm_compute. reflexivity.
  - eexists. vm_compute. reflexivity.
  - intros H. destruct (H "A") as (n & Hn & Heq).
    { vm_compute. auto. }
    vm_compute in Hn. injection Hn as <-.
    unfold critical_path_equation in Heq.
    replace (dependents_of (_tasks (fst (getOrderedTasks stale_memo))) "A")
      with ["B"] in Heq by (vm_compute; reflexivity).
    destruct Heq as (_ & d & [<- | []] & Hd). vm_compute in Hd. discriminate.
Qed.

(** ** The chain of the error is the leftmost walk *)

Lemma on_cycle_reaches m x : on_cycle m x -> reaches_cycle m x.
Proof. intros C. exists x. split; [apply rt_refl | exact C]. Qed.

Lemma reaches_cycle_edge m a b : edge m a b -> reaches_cycle m b -> reaches_cycle m a.
Proof.
  intros E (y & R & C). exists y. split; [| exact C].
  eapply rt_trans; [apply rt_step; exact E | exact R].
Qed.

Lemma finished_reach m checked chain x y :
  check_inv m checked chain -> reach m x y ->
  finished checked chain x -> finished checked chain y.
Proof.
  intros Inv R. unfold reach in R.
  induction R as [x y E | x | x y z _ IH1 _ IH2]; intros F.
  - now apply (Inv x F).
  - exact F.
  - apply IH2, IH1, F.
Qed.

Lemma finished_not_reaching m checked chain v :
  check_inv m checked chain -> finished checked chain v -> ~ reaches_cycle m v.
Proof.
  intros Inv F (y & R & C).
  pose proof (finished_reach m checked chain v y Inv R F) as Fy.
  now apply (Inv y Fy).
Qed.

Lemma first_reaching_In m l x : first_reaching_cycle m l x -> In x l.
Proof.
  intros (l1 & l2 & -> & _). apply in_app_iff. right. now left.
Qed.

Lemma first_reaching_head m x rest :
  reaches_cycle m x -> first_reaching_cycle m (x :: rest) x.
Proof.
  intros R. exists [], rest. split; [reflexivity |]. split; [exact R | intros y []].
Qed.

Lemma first_reaching_skip m u rest x :
  ~ reaches_cycle m u -> first_reaching_cycle m rest x ->
  first_reaching_cycle m (u :: rest) x.
Proof.
  intros N (l1 & l2 & -> & R & H). exists (u :: l1), l2.
  split; [reflexivity |]. split; [exact R |].
  intros y [<- | Hy]; [exact N | now apply H].
Qed.

Lemma first_reaching_unique m : forall l x y,
  first_reaching_cycle m l x -> first_reaching_cycle m l y -> x = y.
Proof.
  intros l x y (l1 & l2 & -> & Rx & Hx) (k1 & k2 & E & Ry & Hy).
  revert k1 E Hy. induction l1 as [| a l1 IH]; intros k1 E Hy.
  - destruct k1 as [| b k1]; simpl in E.
    + now injection E.
    + injection E as E1 _. exfalso. apply (Hy b); [now left | now rewrite <- E1].
  - destruct k1 as [| b k1]; simpl in E.
    + injection E as E1 _. exfalso. apply (Hx a); [now left | now rewrite E1].
    + injection E as _ E. apply (IH (fun z Hz => Hx z (or_intror Hz)) k1 E).
      intros z Hz. apply Hy. now right.
Qed.

Lemma walk_from_skip m u rest ext :
  ~ reaches_cycle m u -> walk_from m rest ext -> walk_from m (u :: rest) ext.
Proof.
  intros N [F L]. split; [| exact L].
  destruct ext as [| x ext]; [exact F | now apply first_reaching_skip].
Qed.

Lemma walk_from_push m t rest ext :
  walk_from m (dependents_of m t) ext -> walk_from m (t :: rest) (t :: ext).
Proof.
  intros [F L]. destruct ext as [| x ext]; [contradiction |].
  split; [| split; assumption].
  apply first_reaching_head. apply (reaches_cycle_edge m t x).
  - exact (first_reaching_In _ _ _ F).
  - destruct F as (_ & _ & _ & R & _). exact R.
Qed.

Section CycleWalk.
Variable m : registry.
Hypothesis closed : forall a b, In b (dependents_of m a) -> In b (keys m).

(** What the check throws is its chain, continued leftmost from the names
    it was called on. *)
Lemma check_walk fuel : forall tasks chain checked e,
  length (keys m) < fuel + length chain ->
  NoDup chain -> incl chain (keys m) -> incl tasks (keys m) ->
  is_path m chain ->
  (forall pre u t, chain = pre ++ [u] -> In t tasks -> edge m u t) ->
  check_inv m checked chain ->
  _checkForCyclicDependencies fuel m tasks chain checked = Throw e ->
  exists ext, e = CyclicDependency (rev (chain ++ ext)) /\ walk_from m tasks ext.
Proof.
  induction fuel as [| fuel IHf]; intros tasks chain checked e Hlen ND Hc Ht P HE Inv E.
  - discriminate.
  - simpl in E. revert checked Inv E.
    induction tasks as [| t rest IHt]; intros checked Inv E; simpl in E.
    + discriminate.
    + assert (Hrest : incl rest (keys m)) by (intros x Hx; apply Ht; now right).
      assert (HErest : forall pre u t0, chain = pre ++ [u] -> In t0 rest -> edge m u t0)
        by (intros pre u t0 E0 H0; apply (HE pre u t0 E0); now right).
      specialize (IHt Hrest HErest).
      assert (Pt : is_path m (chain ++ [t])).
      { apply is_path_snoc; [exact P |].
        intros pre' u E0. apply (HE pre' u t E0). now left. }
      destruct (set_has t chain) eqn:Ech.
      * injection E as <-. apply set_has_In in Ech. exists [t].
        split; [reflexivity |]. split; [| exact I].
        apply first_reaching_head, on_cycle_reaches.
        destruct (in_split _ _ Ech) as (pre & cyc & Es).
        rewrite Es, <- app_assoc in Pt. apply is_path_app_inv in Pt.
        now apply is_path_clos_trans in Pt.
      * apply set_has_false in Ech.
        destruct (set_has t checked) eqn:Eck; simpl in E.
        -- apply set_has_In in Eck.
           destruct (IHt checked Inv E) as (ext & -> & Wk).
           exists ext. split; [reflexivity |].
           apply walk_from_skip; [| exact Wk].
           apply (finished_not_reaching m checked chain); [exact Inv | now split].
        -- apply set_has_false in Eck.
           assert (L1 : length (keys m) < fuel + length (chain ++ [t]))
             by (rewrite length_app; simpl; lia).
           assert (ND1 : NoDup (chain ++ [t])).
           { apply NoDup_app; [exact ND | constructor; [intros [] | constructor] |].
             intros x Hx [<- | []]. contradiction. }
           assert (Hc1 : incl (chain ++ [t]) (keys m)).
           { apply incl_app; [exact Hc |]. intros x [<- | []]. apply Ht. now left. }
           assert (Ht1 : incl (dependents_of m t) (keys m))
             by (intros x Hx; now apply (closed t)).
           assert (HE1 : forall pre u t0, chain ++ [t] = pre ++ [u] ->
                         In t0 (dependents_of m t) -> edge m u t0).
           { intros pre' u t0 E0 H0. apply app_inj_tail in E0.
             destruct E0 as [_ <-]. exact H0. }
           assert (Inv0 : check_inv m (set_add t checked) (chain ++ [t]))
             by now apply check_inv_push.
           pose proof (check_spec m closed fuel (dependents_of m t) (chain ++ [t])
                         (set_add t checked) L1 ND1 Hc1 Ht1 Pt HE1 Inv0) as Rec.
           destruct (_checkForCyclicDependencies fuel m (dependents_of m t)
                       (chain ++ [t]) (set_add t checked)) as [ck1 | e0 |] eqn:Er;
             simpl in Rec.
           ++ destruct Rec as (R1 & R2 & R3).
              assert (Inv1 : check_inv m ck1 chain)
                by (apply (check_inv_pop m ck1 chain t); assumption).
              destruct (IHt ck1 Inv1 E) as (ext & -> & Wk).
              exists ext. split; [reflexivity |].
              apply walk_from_skip; [| exact Wk].
              apply (finished_not_reaching m ck1 chain); [exact Inv1 |].
              split; [apply R1, set_add_In; now left | exact Ech].
           ++ injection E as <-.
              destruct (IHf (dependents_of m t) (chain ++ [t]) (set_add t checked) e0
                          L1 ND1 Hc1 Ht1 Pt HE1 Inv0 Er) as (ext & -> & Wk).
              exists (t :: ext). split; [now rewrite <- app_assoc |].
              now apply walk_from_push.
           ++ discriminate.
Qed.
End CycleWalk.

Lemma leftmost_prefix m : forall w1 w2 x,
  leftmost m (x :: w1) -> leftmost m (x :: w2) ->
  exists r, w1 = w2 ++ r \/ w2 = w1 ++ r.
Proof.
  induction w1 as [| a w1 IH]; intros w2 x L1 L2.
  - exists w2. now right.
  - destruct w2 as [| b w2]; [exists (a :: w1); now left |].
    destruct L1 as [F1 L1], L2 as [F2 L2].
    assert (a = b) by exact (first_reaching_unique m _ a b F1 F2). subst b.
    destruct (IH w2 a L1 L2) as [r [-> | ->]]; exists r; [now left | now right].
Qed.

(** A list that ends where it first meets a name again has no proper
    continuation that does so too. *)
Lemma first_repeat_no_extension (s : list string) t r s' t' :
  In t s -> (s ++ [t]) ++ r = s' ++ [t'] -> NoDup s' -> r = [].
Proof.
  intros Ht E ND. destruct r as [| z r] using rev_ind; [reflexivity |].
  exfalso. clear IHr. rewrite app_assoc in E. apply app_inj_tail in E.
  destruct E as [<- _]. rewrite <- app_assoc in ND. simpl in ND.
  apply NoDup_remove_2 in ND. apply ND, in_app_iff. now left.
Qed.

(** The graph has one such walk at most. *)
Lemma cycle_walk_unique m w1 w2 : cycle_walk m w1 -> cycle_walk m w2 -> w1 = w2.
Proof.
  intros [[F1 L1] (s1 & t1 & E1 & N1 & I1)] [[F2 L2] (s2 & t2 & E2 & N2 & I2)].
  destruct w1 as [| x1 w1]; [contradiction |].
  destruct w2 as [| x2 w2]; [contradiction |].
  assert (x1 = x2) by exact (first_reaching_unique m _ x1 x2 F1 F2). subst x2.
  destruct (leftmost_prefix m w1 w2 x1 L1 L2) as [r [-> | ->]].
  - assert (r = []).
    { apply (first_repeat_no_extension s2 t2 r s1 t1 I2); [| exact N1].
      rewrite <- E2, <- E1. reflexivity. }
    subst r. now rewrite app_nil_r.
  - assert (r = []).
    { apply (first_repeat_no_extension s1 t1 r s2 t2 I1); [| exact N2].
      rewrite <- E1, <- E2. reflexivity. }
    subst r. now rewrite app_nil_r.
Qed.

(** What [getOrderedTasks] throws is the walk. *)
Lemma getOrderedTasks_throws_cycle_walk c c' chain :
  wf (_tasks c) ->
  getOrderedTasks c = (c', Throw (CyclicDependency chain)) ->
  cycle_walk (_tasks c) (rev chain).
Proof.
  intros W E.
  pose proof (check_top (_tasks c) (wf_closed _ W)) as H.
  assert (Ec : _checkForCyclicDependencies (budget (_tasks c)) (_tasks c)
                 (keys (_tasks c)) [] [] = Throw (CyclicDependency chain)).
  { unfold getOrderedTasks, getOrderedTasks_with in E.
    destruct (_checkForCyclicDependencies (budget (_tasks c)) (_tasks c)
                (keys (_tasks c)) [] []) as [ck | e0 |] eqn:Ec0.
    - exfalso.
      assert (A : acyclic (_tasks c))
        by (eapply check_return_acyclic; [apply W | exact Ec0]).
      destruct (calculateAll_spec (_tasks c) (budget (_tasks c)) A (wf_closed _ W))
        with (tasks := keys (_tasks c)) (m := _tasks c) as (m' & Ea & _).
      + rewrite length_keys. unfold budget. lia.
      + apply same_graph_refl.
      + apply incl_refl.
      + rewrite Ea in E. discriminate.
    - now injection E as _ ->.
    - discriminate. }
  rewrite Ec in H. simpl in H.
  destruct H as (pre & t & cyc & Ee & _ & ND & _).
  destruct (check_walk (_tasks c) (wf_closed _ W) (budget (_tasks c))
              (keys (_tasks c)) [] [] (CyclicDependency chain)) as (w & Ew & Wk);
    try exact Ec.
  - unfold budget. rewrite length_keys. simpl. lia.
  - constructor.
  - intros x [].
  - apply incl_refl.
  - exact I.
  - intros [| x p] u t0 E0; discriminate.
  - intros v [[] _].
  - injection Ew as ->. injection Ee as Ee. simpl in Ee. rewrite rev_involutive.
    split; [exact Wk |].
    apply (f_equal (@rev string)) in Ee. rewrite !rev_involutive in Ee.
    exists (pre ++ t :: cyc), t. split; [| split; [exact ND |]].
    + rewrite Ee, <- app_assoc. reflexivity.
    + apply in_app_iff. right. now left.
Qed.

(** C3, as amended.  On a graph with a cycle [getOrderedTasks] throws the
    cyclic-dependency error, whatever the registration order and so whatever
    task the walk starts from, and writes nothing.  The chain of the error
    is the whole path of the walk, reversed.  The path starts at the task
    registered first among those from which a cycle can be reached, goes
    from each task to the first of its dependents, in the order they were
    declared, from which a cycle can be reached, and ends at the first task
    [t] that it meets a second time; the graph has no other such path.  Its
    part from the first [t] on is a cycle, each task of which is named once
    apart from [t]; the tasks of [pre] before it lead into the cycle and
    need not lie on it. *)
Theorem cyclic_graph_rejected c a :
  wf (_tasks c) -> on_cycle (_tasks c) a ->
  exists pre t cyc,
    getOrderedTasks c
    = (c, Throw (CyclicDependency (rev (pre ++ t :: cyc ++ [t]))))
    /\ is_path (_tasks c) (pre ++ t :: cyc ++ [t])
    /\ NoDup (pre ++ t :: cyc)
    /\ (forall x, In x (t :: cyc) -> on_cycle (_tasks c) x)
    /\ cycle_walk (_tasks c) (pre ++ t :: cyc ++ [t])
    /\ (forall w, cycle_walk (_tasks c) w -> w = pre ++ t :: cyc ++ [t]).
Proof.
  intros W C.
  destruct (getOrderedTasks_cyclic c a W C) as (pre & t & cyc & E & P & ND).
  assert (Wk : cycle_walk (_tasks c) (pre ++ t :: cyc ++ [t])).
  { rewrite <- (rev_involutive (pre ++ t :: cyc ++ [t])).
    exact (getOrderedTasks_throws_cycle_walk c c _ W E). }
  exists pre, t, cyc. repeat split; auto; try apply Wk.
  - intros x Hx. apply (closed_path_on_cycle (_tasks c) t cyc); [| exact Hx].
    now apply is_path_app_inv in P.
  - intros w Hw. exact (cycle_walk_unique (_tasks c) _ _ Hw Wk).
Qed.

Lemma tail_into_cycle_on_cycle : on_cycle (_tasks tail_into_cycle) "A".
Proof.
  apply (is_path_clos_trans (_tasks tail_into_cycle) "A" ["B"; "C"] "A").
  vm_compute. auto 10.
Qed.

Lemma cyclic_graph_rejected_witness :
  wf (_tasks tail_into_cycle) /\ on_cycle (_tasks tail_into_cycle) "A"
  /\ exists pre t cyc,
       getOrderedTasks tail_into_cycle
       = (tail_into_cycle, Throw (CyclicDependency (rev (pre ++ t :: cyc ++ [t]))))
       /\ is_path (_tasks tail_into_cycle) (pre ++ t :: cyc ++ [t])
       /\ NoDup (pre ++ t :: cyc)
       /\ (forall x, In x (t :: cyc) -> on_cycle (_tasks tail_into_cycle) x)
       /\ cycle_walk (_tasks tail_into_cycle) (pre ++ t :: cyc ++ [t])
       /\ (forall w, cycle_walk (_tasks tail_into_cycle) w
                     -> w = pre ++ t :: cyc ++ [t]).
Proof.
  split; [apply after_calls_wf |]. split; [apply tail_into_cycle_on_cycle |].
  apply (cyclic_graph_rejected tail_into_cycle "A");
    [apply after_calls_wf | apply tail_into_cycle_on_cycle].
Defined.

(** C3 as stated fails: the chain of the error names the tasks of the walk,
    not of the cycle alone.  With D registered first and A among its
    dependents, the walk enters the cycle A, B, C from D, and the error
    names D, which lies on no cycle. *)
Lemma tail_into_cycle_names_outsider :
  getOrderedTasks tail_into_cycle
  = (tail_into_cycle, Throw (CyclicDependency ["A"; "C"; "B"; "A"; "D"]))
  /\ on_cycle (_tasks tail_into_cycle) "A"
  /\ ~ on_cycle (_tasks tail_into_cycle) "D".
Proof.
  split; [vm_compute; reflexivity |]. split; [apply tail_into_cycle_on_cycle |].
  intros C. apply clos_trans_tn1 in C.
  assert (N : forall y, ~ edge (_tasks tail_into_cycle) y "D").
  { intros y E. unfold edge in E.
    apply (wf_inverse _ (after_calls_wf true _) "D" y) in E.
    vm_compute in E. exact E. }
  inversion C; subst; eapply N; eassumption.
Qed.

(** The cycle alone, without the task that leads into it, is not the walk
    of this graph: the walk is the chain the code throws. *)
Example tail_into_cycle_walk :
  cycle_walk (_tasks tail_into_cycle) ["D"; "A"; "B"; "C"; "A"]
  /\ ~ cycle_walk (_tasks tail_into_cycle) ["A"; "B"; "C"; "A"].
Proof.
  assert (Wk : cycle_walk (_tasks tail_into_cycle) ["D"; "A"; "B"; "C"; "A"]).
  { apply (getOrderedTasks_throws_cycle_walk tail_into_cycle tail_into_cycle
             ["A"; "C"; "B"; "A"; "D"]); [apply after_calls_wf |].
    vm_compute. reflexivity. }
  split; [exact Wk |]. intros H.
  pose proof (cycle_walk_unique _ _ _ H Wk) as E. discriminate.
Qed.

(** C4.  The queue a successful [getOrderedTasks] returns is descending by
    [criticalPathLength] (each task has one, no smaller than those of the
    tasks behind it), and the tasks of any one length stand in the order of
    the registry, which is the order of registration.  The queue is a
    function of the collection, so equal inputs give equal queues. *)
Theorem ordered_descending_stable c c' q :
  wf (_tasks c) ->
  getOrderedTasks c = (c', Return q) ->
  StronglySorted cpl_ge q
  /\ (forall n, filter (has_cpl n) q = filter (has_cpl n) (values (_tasks c')))
  /\ map name (values (_tasks c')) = map name (values (_tasks c)).
Proof.
  intros W E.
  destruct (getOrderedTasks_return c c' q W E) as (_ & G & -> & _ & _ & D).
  split; [| split].
  - apply sortBy_sorted. apply cpl_defined_values.
    + rewrite <- (same_graph_keys _ _ G). apply W.
    + intros k Hk. apply D. now rewrite (same_graph_keys _ _ G).
  - intros n. apply sortBy_stable.
  - symmetry. now apply same_graph_names.
Qed.

Lemma ordered_descending_stable_witness :
  wf (_tasks chain_of_three)
  /\ getOrderedTasks chain_of_three
     = (fst (getOrderedTasks chain_of_three),
        Return (sortBy (values (_tasks (fst (getOrderedTasks chain_of_three)))) sort_key))
  /\ StronglySorted cpl_ge
       (sortBy (values (_tasks (fst (getOrderedTasks chain_of_three)))) sort_key).
Proof.
  assert (W : wf (_tasks chain_of_three)) by apply after_calls_wf.
  assert (E : getOrderedTasks chain_of_three
     = (fst (getOrderedTasks chain_of_three),
        Return (sortBy (values (_tasks (fst (getOrderedTasks chain_of_three)))) sort_key)))
    by (vm_compute; reflexivity).
  split; [exact W |]. split; [exact E |].
  exact (proj1 (ordered_descending_stable chain_of_three _ _ W E)).
Defined.

(** C5, as amended.  When [name] is registered and [d] is the first
    unregistered element of [deps], [addDependencies] throws the error that
    names [d], and leaves the graph as a successful
    [addDependencies(name, pre)] leaves it, [pre] being the elements of
    [deps] before [d]: their edges are added, on both sides, and stay; no
    edge is added for [d] or for an element after it; the invariants of the
    registry hold, so that no edge has one side only.  When [d] is the first
    element the collection is unchanged. *)
Theorem addDependencies_unregistered c n pre d post :
  map_has n (_tasks c) = true ->
  (forall x, In x pre -> map_has x (_tasks c) = true) ->
  map_has d (_tasks c) = false ->
  addDependencies n (Some (pre ++ d :: post)) c
  = (fst (addDependencies n (Some pre) c), Throw (ProjectNotRegistered d))
  /\ snd (addDependencies n (Some pre) c) = Return tt
  /\ (wf (_tasks c) -> wf (_tasks (fst (addDependencies n (Some pre) c))))
  /\ (pre = [] -> fst (addDependencies n (Some pre) c) = c).
Proof.
  intros Hn Hpre Hd. unfold addDependencies, map_has in *.
  destruct (map_get n (_tasks c)) as [t |] eqn:E; [| discriminate].
  rewrite (addDependencies_loop_unregistered n d post pre (_tasks c) Hpre Hd).
  pose proof (addDependencies_loop_registered n pre (_tasks c) Hpre) as Hr.
  pose proof (addDependencies_loop_wf n pre (_tasks c)) as Hw.
  destruct (addDependencies_loop n pre (_tasks c)) as [m r] eqn:El. simpl in *.
  split; [reflexivity |]. split; [exact Hr |]. split.
  - intros W. apply Hw; [| exact W]. apply map_get_keys. eauto.
  - intros ->. simpl in El. injection El as <- _. now destruct c.
Qed.

Lemma addDependencies_unregistered_witness :
  map_has "A" (_tasks two_tasks) = true
  /\ (forall x, In x ["B"] -> map_has x (_tasks two_tasks) = true)
  /\ map_has "Z" (_tasks two_tasks) = false
  /\ addDependencies "A" (Some (["B"] ++ "Z" :: ["A"])) two_tasks
     = (fst (addDependencies "A" (Some ["B"]) two_tasks),
        Throw (ProjectNotRegistered "Z")).
Proof.
  assert (H1 : map_has "A" (_tasks two_tasks) = true) by reflexivity.
  assert (H2 : forall x, In x ["B"] -> map_has x (_tasks two_tasks) = true)
    by (intros x [<- | []]; reflexivity).
  assert (H3 : map_has "Z" (_tasks two_tasks) = false) by reflexivity.
  split; [exact H1 |]. split; [exact H2 |]. split; [exact H3 |].
  exact (proj1 (addDependencies_unregistered two_tasks "A" ["B"] "Z" ["A"] H1 H2 H3)).
Defined.

(** C5 as stated fails: the edges of the names before the unregistered one
    are in the graph after the failed call.  [addDependencies("A", ["B",
    "Z"])] throws for Z and leaves B among the dependencies of A and A among
    the dependents of B. *)
Lemma addDependencies_partial_mutation :
  map_has "A" (_tasks two_tasks) = true
  /\ map_has "Z" (_tasks two_tasks) = false
  /\ snd (addDependencies "A" (Some ["B"; "Z"]) two_tasks)
     = Throw (ProjectNotRegistered "Z")
  /\ fst (addDependencies "A" (Some ["B"; "Z"]) two_tasks) <> two_tasks
  /\ dependencies_of (_tasks two_tasks) "A" = []
  /\ dependents_of (_tasks two_tasks) "B" = []
  /\ dependencies_of
       (_tasks (fst (addDependencies "A" (Some ["B"; "Z"]) two_tasks))) "A" = ["B"]
  /\ dependents_of
       (_tasks (fst (addDependencies "A" (Some ["B"; "Z"]) two_tasks))) "B" = ["A"].
Proof.
  repeat split; try reflexivity. vm_compute. discriminate.
Qed.

(** C6.  After any sequence of [addTask], [hasTask], [addDependencies] and
    [getOrderedTasks] calls on a new collection, failed calls included, B is
    in the dependencies of A exactly when A is in the dependents of B. *)
Theorem mutual_inverse_after_calls q l a b :
  In b (dependencies_of (_tasks (after_calls q l)) a)
  <-> In a (dependents_of (_tasks (after_calls q l)) b).
Proof.
  apply wf_inverse. apply after_calls_wf.
Qed.

(** C7.  [addDependencies] is idempotent: for a registered task and
    registered dependencies the call returns, and the same call on the
    collection it leaves returns and leaves that very collection. *)
Theorem addDependencies_idempotent c n deps :
  map_has n (_tasks c) = true ->
  (forall d, In d deps -> map_has d (_tasks c) = true) ->
  exists c1,
    addDependencies n (Some deps) c = (c1, Return tt)
    /\ addDependencies n (Some deps) c1 = (c1, Return tt).
Proof.
  intros Hn Hd. unfold addDependencies.
  pose proof (addDependencies_loop_has n deps (_tasks c) n) as Hh.
  pose proof (addDependencies_loop_twice n deps (_tasks c)) as Ht.
  pose proof (addDependencies_loop_registered n deps (_tasks c) Hd) as Hr.
  unfold map_has in Hn, Hh.
  destruct (map_get n (_tasks c)) as [t |]; [| discriminate].
  destruct (addDependencies_loop n deps (_tasks c)) as [m r]. simpl in *. subst r.
  exists (with_tasks c m). split; [reflexivity |]. simpl.
  destruct (map_get n m) as [t' |]; [| discriminate].
  rewrite Ht. reflexivity.
Qed.

Lemma addDependencies_idempotent_witness :
  map_has "A" (_tasks two_tasks) = true
  /\ (forall d, In d ["B"; "B"; "A"] -> map_has d (_tasks two_tasks) = true)
  /\ exists c1,
       addDependencies "A" (Some ["B"; "B"; "A"]) two_tasks = (c1, Return tt)
       /\ addDependencies "A" (Some ["B"; "B"; "A"]) c1 = (c1, Return tt).
Proof.
  assert (H1 : map_has "A" (_tasks two_tasks) = true) by reflexivity.
  assert (H2 : forall d, In d ["B"; "B"; "A"] -> map_has d (_tasks two_tasks) = true)
    by (intros d [<- | [<- | [<- | []]]]; reflexivity).
  split; [exact H1 |]. split; [exact H2 |].
  exact (addDependencies_idempotent two_tasks "A" ["B"; "B"; "A"] H1 H2).
Defined.

(** C8.  [addTask] with a name that is registered throws the
    duplicate-registration error and leaves the collection as it was, the
    registry with every task's sets included. *)
Theorem addTask_duplicate c d :
  map_has (def_name d) (_tasks c) = true ->
  addTask d c = (c, Throw DuplicateTask)
  /\ message DuplicateTask = "A task with that name has already been registered.".
Proof.
  intros H. unfold addTask. rewrite H. split; reflexivity.
Qed.

Lemma addTask_duplicate_witness :
  map_has (def_name (mkDefinition "B")) (_tasks chain_of_three) = true
  /\ addTask (mkDefinition "B") chain_of_three
     = (chain_of_three, Throw DuplicateTask).
Proof.
  assert (H : map_has (def_name (mkDefinition "B")) (_tasks chain_of_three) = true)
    by reflexivity.
  split; [exact H |].
  exact (proj1 (addTask_duplicate chain_of_three (mkDefinition "B") H)).
Defined.

(** C9.  [addDependencies(name, [name])] on a registered task returns: the
    task is then among its own dependencies and its own dependents.  The
    cycle is rejected by the next [getOrderedTasks], which throws the
    cyclic-dependency error. *)
Theorem self_dependency_rejected_at_ordering c n :
  wf (_tasks c) -> map_has n (_tasks c) = true ->
  exists c',
    addDependencies n (Some [n]) c = (c', Return tt)
    /\ In n (dependencies_of (_tasks c') n)
    /\ In n (dependents_of (_tasks c') n)
    /\ exists chain, getOrderedTasks c' = (c', Throw (CyclicDependency chain)).
Proof.
  intros W Hn. assert (Hk : In n (keys (_tasks c))) by now apply map_has_keys.
  unfold addDependencies. pose proof Hn as Hg. unfold map_has in Hg.
  destruct (map_get n (_tasks c)) as [t |]; [| discriminate].
  rewrite addDependencies_loop_cons, Hn. simpl.
  exists (with_tasks c (add_edge n n (_tasks c))). split; [reflexivity |]. simpl.
  assert (D1 : In n (dependencies_of (add_edge n n (_tasks c)) n)).
  { rewrite dependencies_of_add_edge, String.eqb_refl by exact Hk.
    apply set_add_In. now left. }
  assert (D2 : In n (dependents_of (add_edge n n (_tasks c)) n)).
  { rewrite dependents_of_add_edge, String.eqb_refl by exact Hk.
    apply set_add_In. now left. }
  split; [exact D1 |]. split; [exact D2 |].
  destruct (getOrderedTasks_cyclic (with_tasks c (add_edge n n (_tasks c))) n)
    as (pre & t0 & cyc & E & _).
  - simpl. now apply wf_add_edge.
  - apply t_step. exact D2.
  - eauto.
Qed.

Lemma self_dependency_rejected_at_ordering_witness :
  wf (_tasks chain_of_three) /\ map_has "B" (_tasks chain_of_three) = true
  /\ exists c',
       addDependencies "B" (Some ["B"]) chain_of_three = (c', Return tt)
       /\ In "B" (dependencies_of (_tasks c') "B")
       /\ In "B" (dependents_of (_tasks c') "B")
       /\ exists chain, getOrderedTasks c' = (c', Throw (CyclicDependency chain)).
Proof.
  assert (W : wf (_tasks chain_of_three)) by apply after_calls_wf.
  assert (H : map_has "B" (_tasks chain_of_three) = true) by reflexivity.
  split; [exact W |]. split; [exact H |].
  exact (self_dependency_rejected_at_ordering chain_of_three "B" W H).
Defined.

(** C10.  [getOrderedTasks] writes nothing but [criticalPathLength]: with
    that field erased the registry after the call is the registry before it
    (the same names in the same order; the same name, dependencies,
    dependents and status in each task), and the rest of the collection is
    untouched.  This holds on an acyclic graph, where the call returns, and
    on any other. *)
Theorem getOrderedTasks_writes_lengths_only c :
  same_graph (_tasks c) (_tasks (fst (getOrderedTasks c)))
  /\ keys (_tasks (fst (getOrderedTasks c))) = keys (_tasks c)
  /\ (forall k, dependencies_of (_tasks (fst (getOrderedTasks c))) k
                = dependencies_of (_tasks c) k)
  /\ (forall k, dependents_of (_tasks (fst (getOrderedTasks c))) k
                = dependents_of (_tasks c) k)
  /\ map status (values (_tasks (fst (getOrderedTasks c))))
     = map status (values (_tasks c))
  /\ _quietMode (fst (getOrderedTasks c)) = _quietMode c
  /\ _terminal (fst (getOrderedTasks c)) = _terminal c.
Proof.
  destruct (getOrderedTasks_frame c) as (G & Q & T).
  split; [exact G |]. split; [symmetry; now apply same_graph_keys |].
  split; [intros k; now apply same_graph_dependencies |].
  split; [intros k; now apply same_graph_dependents |].
  split; [| split; assumption].
  unfold same_graph in G. unfold values. rewrite !map_map.
  apply (f_equal (map (fun e => status (snd e)))) in G.
  rewrite !map_map in G. symmetry. exact G.
Qed.

(** ** Further properties of the collection *)

Lemma edge_same_graph m m' a b : same_graph m m' -> edge m a b -> edge m' a b.
Proof.
  intros G E. unfold edge. now rewrite (same_graph_dependents m m' a G).
Qed.

Lemma clos_trans_same_graph m m' x y :
  same_graph m m' ->
  clos_trans string (edge m') x y -> clos_trans string (edge m) x y.
Proof.
  intros G C. induction C as [x y E | x y z _ IH1 _ IH2].
  - apply t_step. unfold edge in *. now rewrite <- (same_graph_dependents m m' x G).
  - eapply t_trans; eassumption.
Qed.

Lemma on_cycle_same_graph m m' a : same_graph m m' -> on_cycle m' a -> on_cycle m a.
Proof. apply clos_trans_same_graph. Qed.

Lemma acyclic_same_graph m m' : same_graph m m' -> acyclic m -> acyclic m'.
Proof.
  intros G A a C. apply (A a). now apply (on_cycle_same_graph m m').
Qed.

Lemma is_path_same_graph m m' l : same_graph m m' -> is_path m' l -> is_path m l.
Proof.
  intros G. induction l as [| a l IH]; [auto |].
  destruct l as [| b l]; [auto |]. intros [E P]. split; [| now apply IH].
  unfold edge in *. now rewrite <- (same_graph_dependents m m' a G).
Qed.

(** The call returns or throws the cyclic-dependency error, nothing else. *)
Lemma getOrderedTasks_cases c :
  wf (_tasks c) ->
  (acyclic (_tasks c) /\ exists c' q, getOrderedTasks c = (c', Return q))
  \/ (~ acyclic (_tasks c)
      /\ exists chain, getOrderedTasks c = (c, Throw (CyclicDependency chain))).
Proof.
  intros W. pose proof (check_top (_tasks c) (wf_closed _ W)) as H.
  destruct (_checkForCyclicDependencies (budget (_tasks c)) (_tasks c)
              (keys (_tasks c)) [] []) as [ck | e |] eqn:E; simpl in H.
  - left. assert (A : acyclic (_tasks c))
      by (eapply check_return_acyclic; [apply W | exact E]).
    split; [exact A | now apply getOrderedTasks_with_acyclic].
  - right. destruct H as (pre & t & cyc & -> & P & _). split.
    + intros A. apply (A t). apply is_path_app_inv in P.
      now apply is_path_clos_trans in P.
    + eexists. unfold getOrderedTasks, getOrderedTasks_with. rewrite E. reflexivity.
  - contradiction.
Qed.

(** X1.  On a well-formed collection [getOrderedTasks] decides acyclicity:
    it returns a queue exactly when the graph of dependents has no cycle and
    throws the cyclic-dependency error, leaving the collection as it was,
    exactly when it has one.  The recursion budget is never exhausted. *)
Theorem getOrderedTasks_decides_acyclicity c :
  wf (_tasks c) ->
  (acyclic (_tasks c) <-> exists c' q, getOrderedTasks c = (c', Return q))
  /\ (~ acyclic (_tasks c)
      <-> exists chain, getOrderedTasks c = (c, Throw (CyclicDependency chain))).
Proof.
  intros W. destruct (getOrderedTasks_cases c W) as [[A R] | [N T]].
  - split; split; auto.
    + intros N. contradiction.
    + intros [chain E]. destruct R as (c' & q & E'). congruence.
  - split; split; auto.
    + intros A. contradiction.
    + intros (c' & q & E). destruct T as [chain E']. congruence.
Qed.

Lemma getOrderedTasks_decides_acyclicity_witness :
  wf (_tasks tail_into_cycle)
  /\ (~ acyclic (_tasks tail_into_cycle)
      <-> exists chain,
            getOrderedTasks tail_into_cycle
            = (tail_into_cycle, Throw (CyclicDependency chain))).
Proof.
  split; [apply after_calls_wf |].
  exact (proj2 (getOrderedTasks_decides_acyclicity tail_into_cycle
                  (after_calls_wf true _))).
Defined.

Lemma calculateAll_memoized fuel : forall tasks m,
  (forall t, In t tasks -> exists n, cpl_of m t = Some n) ->
  calculateAll (S fuel) tasks m = (m, Return tt).
Proof.
  induction tasks as [| t rest IH]; intros m H; [reflexivity |].
  destruct (H t (or_introl eq_refl)) as [n Hn].
  unfold cpl_of in Hn. cbn [calculateAll _calculateCriticalPaths].
  destruct (map_get t m) as [t0 |]; [| discriminate].
  rewrite Hn. apply IH. intros x Hx. apply H. now right.
Qed.

(** X2.  A second [getOrderedTasks] right after a successful one returns the
    same queue and leaves the collection as the first call left it. *)
Theorem getOrderedTasks_repeatable c c' q :
  wf (_tasks c) ->
  getOrderedTasks c = (c', Return q) ->
  getOrderedTasks c' = (c', Return q).
Proof.
  intros W E.
  destruct (getOrderedTasks_return c c' q W E) as (A & G & -> & _ & _ & D).
  assert (W' : wf (_tasks c')) by now apply (wf_same_graph (_tasks c)).
  assert (A' : acyclic (_tasks c')) by now apply (acyclic_same_graph (_tasks c)).
  unfold getOrderedTasks, getOrderedTasks_with.
  destruct (check_acyclic (_tasks c') (wf_closed _ W') A') as [ck ->].
  unfold budget. rewrite calculateAll_memoized.
  - now destruct c'.
  - intros t Ht. apply D. now rewrite (same_graph_keys _ _ G).
Qed.

Lemma getOrderedTasks_repeatable_witness :
  wf (_tasks chain_of_three)
  /\ getOrderedTasks (fst (getOrderedTasks chain_of_three))
     = (fst (getOrderedTasks chain_of_three),
        Return (sortBy (values (_tasks (fst (getOrderedTasks chain_of_three)))) sort_key)).
Proof.
  assert (W : wf (_tasks chain_of_three)) by apply after_calls_wf.
  split; [exact W |].
  apply (getOrderedTasks_repeatable chain_of_three _ _ W). vm_compute. reflexivity.
Defined.

(** X3.  [getOrderedTasks] never changes a length that is memoized already,
    whether it returns or throws. *)
Theorem getOrderedTasks_keeps_memoized c k v :
  wf (_tasks c) ->
  cpl_of (_tasks c) k = Some v ->
  cpl_of (_tasks (fst (getOrderedTasks c))) k = Some v.
Proof.
  intros W H. destruct (getOrderedTasks_cases c W) as [[_ (c' & q & E)] | [_ [ch E]]];
    rewrite E; simpl; [| exact H].
  destruct (getOrderedTasks_return c c' q W E) as (_ & _ & _ & Mo & _).
  now apply Mo.
Qed.

Lemma getOrderedTasks_keeps_memoized_witness :
  wf (_tasks stale_memo)
  /\ cpl_of (_tasks stale_memo) "A" = Some 0%Z
  /\ cpl_of (_tasks (fst (getOrderedTasks stale_memo))) "A" = Some 0%Z.
Proof.
  assert (W : wf (_tasks stale_memo)) by apply after_calls_wf.
  assert (H : cpl_of (_tasks stale_memo) "A" = Some 0%Z) by reflexivity.
  split; [exact W |]. split; [exact H |].
  exact (getOrderedTasks_keeps_memoized stale_memo "A" 0%Z W H).
Defined.

Lemma same_graph_sym m m' : same_graph m m' -> same_graph m' m.
Proof. unfold same_graph. congruence. Qed.

Lemma named_same_graph m m' : same_graph m m' -> Forall named m -> Forall named m'.
Proof.
  intros G N. pose proof (same_graph_names m m' G) as Hn.
  rewrite (named_keys m N), (same_graph_keys m m' G) in Hn.
  unfold values, keys in Hn. rewrite map_map in Hn. clear G N.
  induction m' as [| e m' IH]; [constructor |].
  simpl in Hn. injection Hn as H1 H2. constructor; [now symmetry | now apply IH].
Qed.

Lemma cpl_of_task m k n :
  cpl_of m k = Some n ->
  exists t, map_get k m = Some t /\ criticalPathLength t = Some n /\ In t (values m).
Proof.
  unfold cpl_of. destruct (map_get k m) as [t |] eqn:E; [| discriminate].
  intros H. exists t. repeat split; auto.
  apply map_get_In in E. unfold values. change t with (snd (k, t)). now apply in_map.
Qed.

(** What a first ordering leaves behind. *)
Lemma first_order_state c c' q :
  wf (_tasks c) -> Forall unmemoized (_tasks c) ->
  getOrderedTasks c = (c', Return q) ->
  same_graph (_tasks c) (_tasks c')
  /\ wf (_tasks c') /\ acyclic (_tasks c') /\ critical_paths (_tasks c')
  /\ q = sortBy (values (_tasks c')) sort_key
  /\ StronglySorted cpl_ge q.
Proof.
  intros W U E.
  destruct (getOrderedTasks_return c c' q W E) as (A & G & -> & _ & Ok & D).
  assert (W' : wf (_tasks c')) by now apply (wf_same_graph (_tasks c)).
  assert (D' : forall k, In k (keys (_tasks c')) -> exists n, cpl_of (_tasks c') k = Some n).
  { intros k Hk. apply D. now rewrite (same_graph_keys _ _ G). }
  split; [exact G |]. split; [exact W' |].
  split; [now apply (acyclic_same_graph (_tasks c)) |]. split; [| split; [reflexivity |]].
  - intros k Hk. destruct (D' k Hk) as [n Hn]. exists n. split; [exact Hn |].
    apply cpl_eqn_equation. apply Ok; [now apply unmemoized_memo_ok | exact Hn].
  - apply sortBy_sorted. apply cpl_defined_values; [apply W' | exact D'].
Qed.

(** In a queue that is descending by length, a task of a larger length
    stands before a task of a smaller one. *)
Lemma sorted_before q : StronglySorted cpl_ge q ->
  forall ta tb x y,
    In ta q -> In tb q ->
    criticalPathLength ta = Some x -> criticalPathLength tb = Some y -> (y < x)%Z ->
    exists l1 l2 l3, q = l1 ++ ta :: l2 ++ tb :: l3.
Proof.
  induction 1 as [| h r S IH F]; intros ta tb x y Ha Hb Hx Hy L; [contradiction |].
  destruct Ha as [<- | Ha], Hb as [Hb | Hb].
  - subst tb. exfalso. rewrite Hx in Hy. injection Hy as ->. lia.
  - destruct (in_split _ _ Hb) as (l2 & l3 & ->). now exists [], l2, l3.
  - subst tb. exfalso. rewrite Forall_forall in F.
    destruct (F ta Ha) as (y' & x' & E1 & E2 & L').
    rewrite Hy in E1. rewrite Hx in E2. injection E1 as <-. injection E2 as <-. lia.
  - destruct (IH ta tb x y Ha Hb Hx Hy L) as (l1 & l2 & l3 & ->).
    now exists (h :: l1), l2, l3.
Qed.

(** X4.  The queue of a first ordering is a topological order: when [b]
    depends on [a], the task [a] stands before the task [b]. *)
Theorem dependencies_come_first c c' q a b :
  built c ->
  getOrderedTasks c = (c', Return q) ->
  In a (dependencies_of (_tasks c) b) ->
  exists l1 ta l2 tb l3,
    q = l1 ++ ta :: l2 ++ tb :: l3 /\ name ta = a /\ name tb = b.
Proof.
  intros B E Hab. destruct (built_invariants c B) as (W & N & U).
  destruct (first_order_state c c' q W U E) as (G & W' & A' & CP & Eq & S).
  assert (N' : Forall named (_tasks c')) by now apply (named_same_graph (_tasks c)).
  assert (Hba : In b (dependents_of (_tasks c') a)).
  { rewrite (same_graph_dependents _ _ a G). now apply (wf_inverse _ W). }
  assert (Ka : In a (keys (_tasks c'))) by now apply (dependents_of_registered _ a b).
  assert (Kb : In b (keys (_tasks c'))) by now apply (wf_closed _ W' a).
  destruct (CP a Ka) as (x & Hx & Heq). unfold critical_path_equation in Heq.
  destruct (dependents_of (_tasks c') a) as [| d0 ds] eqn:Ed; [contradiction |].
  destruct Heq as (Hall & _). destruct (Hall b Hba) as (y & Hy & L).
  destruct (cpl_of_task _ _ _ Hx) as (ta & Ga & Ca & Ia).
  destruct (cpl_of_task _ _ _ Hy) as (tb & Gb & Cb & Ib).
  assert (Qa : In ta q)
    by (rewrite Eq; apply (Permutation_in _ (sortBy_perm sort_key _)); exact Ia).
  assert (Qb : In tb q)
    by (rewrite Eq; apply (Permutation_in _ (sortBy_perm sort_key _)); exact Ib).
  destruct (sorted_before q S ta tb x y Qa Qb Ca Cb) as (l1 & l2 & l3 & Hq); [lia |].
  exists l1, ta, l2, tb, l3. split; [exact Hq |].
  rewrite Forall_forall in N'. split.
  - exact (N' (a, ta) (map_get_In _ _ _ Ga)).
  - exact (N' (b, tb) (map_get_In _ _ _ Gb)).
Qed.

Lemma dependencies_come_first_witness :
  built chain_of_three
  /\ In "A" (dependencies_of (_tasks chain_of_three) "B")
  /\ exists l1 ta l2 tb l3,
       sortBy (values (_tasks (fst (getOrderedTasks chain_of_three)))) sort_key
       = l1 ++ ta :: l2 ++ tb :: l3 /\ name ta = "A" /\ name tb = "B".
Proof.
  assert (B : built chain_of_three).
  { apply built_after_calls; [apply built_new | vm_compute; reflexivity]. }
  assert (H : In "A" (dependencies_of (_tasks chain_of_three) "B"))
    by (vm_compute; auto).
  split; [exact B |]. split; [exact H |].
  apply (dependencies_come_first chain_of_three
           (fst (getOrderedTasks chain_of_three)) _ "A" "B" B);
    [vm_compute; reflexivity | exact H].
Defined.

(** On an acyclic graph a path that is continued along an edge stays free of
    repetitions. *)
Lemma path_extend m pre k d :
  acyclic m -> is_path m (pre ++ [k]) -> NoDup (pre ++ [k]) -> edge m k d ->
  is_path m ((pre ++ [k]) ++ [d]) /\ NoDup ((pre ++ [k]) ++ [d]).
Proof.
  intros A P ND E.
  assert (P' : is_path m ((pre ++ [k]) ++ [d])).
  { apply is_path_snoc; [exact P |].
    intros pre' u Eq. apply app_inj_tail in Eq. destruct Eq as [_ <-]. exact E. }
  split; [exact P' |].
  apply NoDup_app; [exact ND | constructor; [intros [] | constructor] |].
  intros x Hx [<- | []]. destruct (in_split _ _ Hx) as (l1 & l2 & Es).
  apply (A d). rewrite Es, <- app_assoc in P'. apply is_path_app_inv in P'.
  now apply is_path_clos_trans in P'.
Qed.

Lemma acyclic_path_NoDup m l : acyclic m -> is_path m l -> NoDup l.
Proof.
  intros A. induction l as [| a l IH]; intros P; [constructor |].
  constructor.
  - intros Hin. destruct (in_split _ _ Hin) as (l1 & l2 & ->). apply (A a).
    apply (is_path_clos_trans m a l1 a).
    apply (is_path_app_l m (a :: l1 ++ [a]) l2). simpl. now rewrite <- app_assoc.
  - apply IH. now apply (is_path_app_inv m [a]).
Qed.

Lemma path_registered m k p :
  (forall a b, In b (dependents_of m a) -> In b (keys m)) ->
  In k (keys m) -> is_path m (k :: p) -> incl (k :: p) (keys m).
Proof.
  intros closed. revert k. induction p as [| d p IH]; intros k Hk P.
  - intros x [<- | []]. exact Hk.
  - destruct P as [E P]. intros x [<- | Hx]; [exact Hk |].
    apply (IH d); [now apply (closed k) | exact P | exact Hx].
Qed.

Lemma cpl_of_registered m k n : cpl_of m k = Some n -> In k (keys m).
Proof.
  unfold cpl_of. intros H. apply map_get_keys.
  destruct (map_get k m); [eauto | discriminate].
Qed.

Section LongestChain.
Variable m : registry.
Hypothesis m_acyclic : acyclic m.
Hypothesis m_closed : forall a b, In b (dependents_of m a) -> In b (keys m).
Hypothesis m_paths : critical_paths m.

Lemma chain_exists fuel : forall pre k n,
  is_path m (pre ++ [k]) -> NoDup (pre ++ [k]) -> incl (pre ++ [k]) (keys m) ->
  length (keys m) <= fuel + length pre ->
  cpl_of m k = Some n ->
  exists p, is_path m (k :: p) /\ Z.of_nat (length p) = n.
Proof.
  induction fuel as [| fuel IH]; intros pre k n P ND Hin Hlen Hn.
  - exfalso. apply NoDup_incl_length in Hin; [| exact ND].
    rewrite length_app in Hin. simpl in *. lia.
  - destruct (m_paths k (cpl_of_registered m k n Hn)) as (n' & Hn' & Heq).
    rewrite Hn in Hn'. injection Hn' as <-.
    unfold critical_path_equation in Heq.
    destruct (dependents_of m k) as [| d0 ds] eqn:Ed.
    + exists []. split; [exact I | now subst].
    + destruct Heq as (_ & d & Hd & Hv).
      assert (E : edge m k d) by (unfold edge; now rewrite Ed).
      destruct (path_extend m pre k d m_acyclic P ND E) as [P' ND'].
      destruct (IH (pre ++ [k]) d (n - 1)%Z P' ND') as (p & Pp & Lp).
      * apply incl_app; [exact Hin |]. intros x [<- | []]. now apply (m_closed k).
      * rewrite length_app. simpl. lia.
      * exact Hv.
      * exists (d :: p). split; [split; [exact E | exact Pp] |]. simpl length. lia.
Qed.

Lemma chain_from k n :
  cpl_of m k = Some n ->
  exists p, is_path m (k :: p) /\ Z.of_nat (length p) = n.
Proof.
  intros Hn. apply (chain_exists (length (keys m)) [] k n); auto.
  - exact I.
  - constructor; [intros [] | constructor].
  - intros x [<- | []]. now apply (cpl_of_registered m k n).
  - simpl. lia.
Qed.

Lemma chain_bound p : forall k n,
  cpl_of m k = Some n -> is_path m (k :: p) -> (Z.of_nat (length p) <= n)%Z.
Proof.
  induction p as [| d p IH]; intros k n Hn P.
  - destruct (chain_from k n Hn) as (p0 & _ & L). simpl. lia.
  - destruct P as [E P].
    destruct (m_paths k (cpl_of_registered m k n Hn)) as (n' & Hn' & Heq).
    rewrite Hn in Hn'. injection Hn' as <-.
    unfold critical_path_equation in Heq. unfold edge in E.
    destruct (dependents_of m k) as [| d0 ds] eqn:Ed; [contradiction |].
    destruct Heq as (Hall & _). destruct (Hall d E) as (v & Hv & L).
    specialize (IH d v Hv P). simpl length. lia.
Qed.

Lemma cpl_below_size k n :
  cpl_of m k = Some n -> (0 <= n < Z.of_nat (length (keys m)))%Z.
Proof.
  intros Hn. destruct (chain_from k n Hn) as (p & P & L).
  assert (ND : NoDup (k :: p)) by now apply (acyclic_path_NoDup m).
  assert (Hin : incl (k :: p) (keys m)).
  { apply path_registered; auto. now apply (cpl_of_registered m k n). }
  apply NoDup_incl_length in Hin; [| exact ND]. simpl in Hin. lia.
Qed.
End LongestChain.

(** X5.  After a first ordering the [criticalPathLength] of a task is the
    number of edges of the longest chain of dependents that starts at the
    task: there is a chain of that length, and none is longer. *)
Theorem criticalPathLength_is_longest_chain c c' q k n :
  wf (_tasks c) -> Forall unmemoized (_tasks c) ->
  getOrderedTasks c = (c', Return q) ->
  cpl_of (_tasks c') k = Some n ->
  (exists p, is_path (_tasks c) (k :: p) /\ Z.of_nat (length p) = n)
  /\ (forall p, is_path (_tasks c) (k :: p) -> (Z.of_nat (length p) <= n)%Z).
Proof.
  intros W U E Hn.
  destruct (first_order_state c c' q W U E) as (G & W' & A' & CP & _).
  split.
  - destruct (chain_from (_tasks c') A' (wf_closed _ W') CP k n Hn) as (p & P & L).
    exists p. split; [| exact L]. now apply (is_path_same_graph _ (_tasks c')).
  - intros p P. apply (chain_bound (_tasks c') A' (wf_closed _ W') CP p k n Hn).
    apply (is_path_same_graph (_tasks c') (_tasks c)); [now apply same_graph_sym | exact P].
Qed.

Lemma criticalPathLength_is_longest_chain_witness :
  wf (_tasks chain_of_three) /\ Forall unmemoized (_tasks chain_of_three)
  /\ cpl_of (_tasks (fst (getOrderedTasks chain_of_three))) "A" = Some 2%Z
  /\ (exists p, is_path (_tasks chain_of_three) ("A" :: p)
                /\ Z.of_nat (length p) = 2%Z)
  /\ (forall p, is_path (_tasks chain_of_three) ("A" :: p)
                -> (Z.of_nat (length p) <= 2)%Z).
Proof.
  assert (W : wf (_tasks chain_of_three)) by apply after_calls_wf.
  assert (U : Forall unmemoized (_tasks chain_of_three))
    by (vm_compute; repeat constructor).
  assert (H : cpl_of (_tasks (fst (getOrderedTasks chain_of_three))) "A" = Some 2%Z)
    by reflexivity.
  split; [exact W |]. split; [exact U |]. split; [exact H |].
  apply (criticalPathLength_is_longest_chain chain_of_three
           (fst (getOrderedTasks chain_of_three))
           (sortBy (values (_tasks (fst (getOrderedTasks chain_of_three)))) sort_key)
           "A" 2%Z W U); [vm_compute; reflexivity | exact H].
Defined.

(** X6.  After a first ordering every length lies from 0 to the number of
    registered tasks less one. *)
Theorem criticalPathLength_bounds c c' q k n :
  wf (_tasks c) -> Forall unmemoized (_tasks c) ->
  getOrderedTasks c = (c', Return q) ->
  cpl_of (_tasks c') k = Some n ->
  (0 <= n < Z.of_nat (length (_tasks c)))%Z.
Proof.
  intros W U E Hn.
  destruct (first_order_state c c' q W U E) as (G & W' & A' & CP & _).
  pose proof (cpl_below_size (_tasks c') A' (wf_closed _ W') CP k n Hn) as H.
  rewrite <- (same_graph_keys _ _ G), length_keys in H. exact H.
Qed.

Lemma criticalPathLength_bounds_witness :
  wf (_tasks chain_of_three) /\ Forall unmemoized (_tasks chain_of_three)
  /\ cpl_of (_tasks (fst (getOrderedTasks chain_of_three))) "A" = Some 2%Z
  /\ (0 <= 2 < Z.of_nat (length (_tasks chain_of_three)))%Z.
Proof.
  assert (W : wf (_tasks chain_of_three)) by apply after_calls_wf.
  assert (U : Forall unmemoized (_tasks chain_of_three))
    by (vm_compute; repeat constructor).
  assert (H : cpl_of (_tasks (fst (getOrderedTasks chain_of_three))) "A" = Some 2%Z)
    by reflexivity.
  split; [exact W |]. split; [exact U |]. split; [exact H |].
  apply (criticalPathLength_bounds chain_of_three
           (fst (getOrderedTasks chain_of_three))
           (sortBy (values (_tasks (fst (getOrderedTasks chain_of_three)))) sort_key)
           "A" 2%Z W U); [vm_compute; reflexivity | exact H].
Defined.

(** ** Further properties of [addTask] and [addDependencies] *)

Lemma addDependencies_loop_outcome n : forall deps m m0,
  (forall k, map_has k m = map_has k m0) ->
  snd (addDependencies_loop n deps m)
  = match find (fun d => negb (map_has d m0)) deps with
    | Some d => Throw (ProjectNotRegistered d)
    | None => Return tt
    end.
Proof.
  induction deps as [| d rest IH]; intros m m0 H; [reflexivity |].
  rewrite addDependencies_loop_cons. simpl find. rewrite <- (H d).
  destruct (map_has d m); simpl; [| reflexivity].
  apply IH. intros k. now rewrite map_has_add_edge.
Qed.

(** X7.  The outcome of [addDependencies] is the error of the first test
    that fails, in the order: the task is not registered; the list is
    undefined; the first name of the list that is not registered.  The call
    returns when no test fails.  On the first two errors the collection is
    as before. *)
Theorem addDependencies_outcome_correct c n deps :
  snd (addDependencies n deps c) = addDependencies_outcome n deps (_tasks c)
  /\ (map_has n (_tasks c) = false \/ deps = None ->
      fst (addDependencies n deps c) = c).
Proof.
  unfold addDependencies, addDependencies_outcome, map_has.
  destruct (map_get n (_tasks c)) as [t |]; simpl.
  - destruct deps as [deps |]; simpl.
    + pose proof (addDependencies_loop_outcome n deps (_tasks c) (_tasks c)
                    (fun k => eq_refl)) as H.
      destruct (addDependencies_loop n deps (_tasks c)) as [m r]. simpl in *.
      split; [exact H |]. intros [H0 | H0]; discriminate.
    + split; reflexivity.
  - split; reflexivity.
Qed.

Lemma addDependencies_loop_keys n : forall deps m,
  keys (fst (addDependencies_loop n deps m)) = keys m.
Proof.
  induction deps as [| d rest IH]; intros m; [reflexivity |].
  rewrite addDependencies_loop_cons. destruct (map_has d m); [| reflexivity].
  rewrite IH. apply keys_add_edge.
Qed.

Lemma addDependencies_loop_cpl n : forall deps m k,
  cpl_of (fst (addDependencies_loop n deps m)) k = cpl_of m k.
Proof.
  induction deps as [| d rest IH]; intros m k; [reflexivity |].
  rewrite addDependencies_loop_cons. destruct (map_has d m); [| reflexivity].
  rewrite IH. apply cpl_of_add_edge.
Qed.

Lemma addDependencies_loop_edges n : forall deps m m',
  In n (keys m) ->
  addDependencies_loop n deps m = (m', Return tt) ->
  forall a b,
    (In b (dependencies_of m' a)
     <-> In b (dependencies_of m a) \/ (a = n /\ In b deps))
    /\ (In a (dependents_of m' b)
        <-> In a (dependents_of m b) \/ (a = n /\ In b deps)).
Proof.
  induction deps as [| d rest IH]; intros m m' Hn E a b.
  - injection E as <-. simpl. tauto.
  - rewrite addDependencies_loop_cons in E.
    destruct (map_has d m) eqn:Hd; [| discriminate].
    apply map_has_keys in Hd.
    assert (Hn1 : In n (keys (add_edge n d m))) by now rewrite keys_add_edge.
    destruct (IH (add_edge n d m) m' Hn1 E a b) as [I1 I2].
    rewrite I1, I2, dependencies_of_add_edge, dependents_of_add_edge by assumption.
    destruct (String.eqb_spec n a) as [Ea | Ea], (String.eqb_spec d b) as [Eb | Eb];
      rewrite ?set_add_In; simpl; intuition (subst; auto; congruence).
Qed.

(** X8.  A successful [addDependencies(name, deps)] adds the edges from
    [name] to the names of [deps], each on both sides, and nothing else: the
    sets of all tasks are otherwise as before, no task is added or removed,
    and no memoized length is changed or cleared. *)
Theorem addDependencies_adds_edges c n deps c' :
  addDependencies n (Some deps) c = (c', Return tt) ->
  keys (_tasks c') = keys (_tasks c)
  /\ (forall k, cpl_of (_tasks c') k = cpl_of (_tasks c) k)
  /\ forall a b,
       (In b (dependencies_of (_tasks c') a)
        <-> In b (dependencies_of (_tasks c) a) \/ (a = n /\ In b deps))
       /\ (In a (dependents_of (_tasks c') b)
           <-> In a (dependents_of (_tasks c) b) \/ (a = n /\ In b deps)).
Proof.
  unfold addDependencies. destruct (map_get n (_tasks c)) as [t |] eqn:Eg;
    [| discriminate].
  pose proof (addDependencies_loop_keys n deps (_tasks c)) as Hk.
  pose proof (addDependencies_loop_cpl n deps (_tasks c)) as Hc.
  pose proof (addDependencies_loop_edges n deps (_tasks c)) as He.
  destruct (addDependencies_loop n deps (_tasks c)) as [m r]. simpl in *.
  intros E. injection E as <- ->. simpl.
  split; [exact Hk |]. split; [exact Hc |].
  apply He; [| reflexivity]. apply map_get_keys. eauto.
Qed.

Lemma addDependencies_adds_edges_witness :
  addDependencies "A" (Some ["B"]) two_tasks
  = (fst (addDependencies "A" (Some ["B"]) two_tasks), Return tt)
  /\ forall a b,
       In b (dependencies_of
               (_tasks (fst (addDependencies "A" (Some ["B"]) two_tasks))) a)
       <-> In b (dependencies_of (_tasks two_tasks) a) \/ (a = "A" /\ In b ["B"]).
Proof.
  assert (E : addDependencies "A" (Some ["B"]) two_tasks
              = (fst (addDependencies "A" (Some ["B"]) two_tasks), Return tt))
    by reflexivity.
  split; [exact E |]. intros a b.
  exact (proj1 (proj2 (proj2 (addDependencies_adds_edges two_tasks "A" ["B"] _ E)) a b)).
Defined.

Lemma addDependencies_loop_app n : forall l1 l2 m,
  addDependencies_loop n (l1 ++ l2) m
  = match addDependencies_loop n l1 m with
    | (m1, Return _) => addDependencies_loop n l2 m1
    | (m1, o) => (m1, o)
    end.
Proof.
  induction l1 as [| d l1 IH]; intros l2 m; [reflexivity |].
  rewrite <- app_comm_cons, !addDependencies_loop_cons.
  destruct (map_has d m); [apply IH | reflexivity].
Qed.

(** X9.  One call with the list [l1 ++ l2] does what two calls do, the first
    with [l1], when it returns, and the second with [l2]: the same outcome
    and the same collection. *)
Theorem addDependencies_app c n l1 l2 c1 :
  addDependencies n (Some l1) c = (c1, Return tt) ->
  addDependencies n (Some (l1 ++ l2)) c = addDependencies n (Some l2) c1.
Proof.
  unfold addDependencies.
  destruct (map_get n (_tasks c)) as [t |] eqn:Eg; [| discriminate].
  pose proof (addDependencies_loop_has n l1 (_tasks c) n) as Hh.
  rewrite addDependencies_loop_app.
  destruct (addDependencies_loop n l1 (_tasks c)) as [m1 r]. simpl in Hh.
  intros E. injection E as <- ->. simpl.
  unfold map_has in Hh. rewrite Eg in Hh.
  destruct (map_get n m1) as [t1 |]; [| discriminate].
  destruct (addDependencies_loop n l2 m1) as [m2 r2]. reflexivity.
Qed.

Lemma addDependencies_app_witness :
  addDependencies "C" (Some ["A"]) chain_of_three
  = (fst (addDependencies "C" (Some ["A"]) chain_of_three), Return tt)
  /\ addDependencies "C" (Some (["A"] ++ ["B"; "Z"])) chain_of_three
     = addDependencies "C" (Some ["B"; "Z"])
         (fst (addDependencies "C" (Some ["A"]) chain_of_three)).
Proof.
  assert (E : addDependencies "C" (Some ["A"]) chain_of_three
              = (fst (addDependencies "C" (Some ["A"]) chain_of_three), Return tt))
    by reflexivity.
  split; [exact E |].
  exact (addDependencies_app chain_of_three "C" ["A"] ["B"; "Z"] _ E).
Defined.

(** X10.  [addTask] with a name that is not registered returns; the task is
    then registered, last in the order of the registry, with empty
    dependencies and dependents, status Ready and no length; what is stored
    under any other name is as before. *)
Theorem addTask_registers c d :
  map_has (def_name d) (_tasks c) = false ->
  exists c',
    addTask d c = (c', Return tt)
    /\ keys (_tasks c') = keys (_tasks c) ++ [def_name d]
    /\ map_get (def_name d) (_tasks c') = Some (mkTask (def_name d) [] [] Ready None)
    /\ (forall k, k <> def_name d -> map_get k (_tasks c') = map_get k (_tasks c)).
Proof.
  intros H. destruct (addTask_tasks d c H) as [Et Er].
  exists (fst (addTask d c)). split; [destruct (addTask d c); simpl in *; now subst |].
  rewrite Et. split; [unfold keys; now rewrite map_app |].
  unfold map_has in H. split.
  - rewrite map_get_app. destruct (map_get (def_name d) (_tasks c)); [discriminate |].
    now rewrite String.eqb_refl.
  - intros k Hk. rewrite map_get_app. destruct (map_get k (_tasks c)); [reflexivity |].
    apply String.eqb_neq in Hk. now rewrite Hk.
Qed.

Lemma addTask_registers_witness :
  map_has (def_name (mkDefinition "C")) (_tasks two_tasks) = false
  /\ exists c',
       addTask (mkDefinition "C") two_tasks = (c', Return tt)
       /\ keys (_tasks c') = keys (_tasks two_tasks) ++ ["C"].
Proof.
  assert (H : map_has (def_name (mkDefinition "C")) (_tasks two_tasks) = false)
    by reflexivity.
  split; [exact H |].
  destruct (addTask_registers two_tasks (mkDefinition "C") H) as (c' & E & K & _).
  exists c'. split; [exact E | exact K].
Defined.

(** ** What no call undoes *)

Lemma addDependencies_loop_grows n : forall deps m a b,
  In n (keys m) ->
  (In b (dependents_of m a) -> In b (dependents_of (fst (addDependencies_loop n deps m)) a))
  /\ (In b (dependencies_of m a)
      -> In b (dependencies_of (fst (addDependencies_loop n deps m)) a)).
Proof.
  induction deps as [| d rest IH]; intros m a b Hn; [split; auto |].
  rewrite addDependencies_loop_cons. destruct (map_has d m) eqn:Hd; [| split; auto].
  apply map_has_keys in Hd.
  assert (Hn1 : In n (keys (add_edge n d m))) by now rewrite keys_add_edge.
  destruct (IH (add_edge n d m) a b Hn1) as [I1 I2]. split; intros H.
  - apply I1. rewrite dependents_of_add_edge by exact Hd.
    destruct (String.eqb d a); [apply set_add_In; now right | exact H].
  - apply I2. rewrite dependencies_of_add_edge by exact Hn.
    destruct (String.eqb n a); [apply set_add_In; now right | exact H].
Qed.

Lemma addTask_keeps_graph d c x :
  dependents_of (_tasks (fst (addTask d c))) x = dependents_of (_tasks c) x
  /\ dependencies_of (_tasks (fst (addTask d c))) x = dependencies_of (_tasks c) x
  /\ cpl_of (_tasks (fst (addTask d c))) x = cpl_of (_tasks c) x.
Proof.
  destruct (map_has (def_name d) (_tasks c)) eqn:E.
  - unfold addTask. rewrite E. auto.
  - destruct (addTask_tasks d c E) as [-> _]. apply graph_of_fresh.
    rewrite <- map_has_keys. congruence.
Qed.

Lemma addTask_keeps_registered d c k :
  map_has k (_tasks c) = true -> map_has k (_tasks (fst (addTask d c))) = true.
Proof.
  intros H. destruct (map_has (def_name d) (_tasks c)) eqn:E.
  - unfold addTask. now rewrite E.
  - destruct (addTask_tasks d c E) as [-> _]. unfold map_has in *.
    rewrite map_get_app. now destruct (map_get k (_tasks c)).
Qed.

(** X11.  No call of the interface, failed or not, unregisters a task or
    removes a name from a set of dependencies or of dependents. *)
Theorem calls_only_add c o :
  (forall k, map_has k (_tasks c) = true -> map_has k (_tasks (after_call c o)) = true)
  /\ (forall a b, In b (dependencies_of (_tasks c) a)
                  -> In b (dependencies_of (_tasks (after_call c o)) a))
  /\ (forall a b, In b (dependents_of (_tasks c) a)
                  -> In b (dependents_of (_tasks (after_call c o)) a)).
Proof.
  destruct o as [d | n | n deps |]; simpl.
  - split; [intros k; apply addTask_keeps_registered |].
    split; intros a b H.
    + now rewrite (proj1 (proj2 (addTask_keeps_graph d c a))).
    + now rewrite (proj1 (addTask_keeps_graph d c a)).
  - auto.
  - unfold addDependencies. destruct (map_get n (_tasks c)) as [t |] eqn:Eg; [| auto].
    destruct deps as [deps |]; [| auto].
    assert (Hn : In n (keys (_tasks c))) by (apply map_get_keys; eauto).
    pose proof (addDependencies_loop_has n deps (_tasks c)) as Hh.
    pose proof (fun a b => addDependencies_loop_grows n deps (_tasks c) a b Hn) as Hg.
    destruct (addDependencies_loop n deps (_tasks c)) as [m r]. simpl in *.
    split; [intros k H; now rewrite Hh |].
    split; intros a b H; now apply Hg.
  - destruct (getOrderedTasks_frame c) as (G & _).
    split; [| split].
    + intros k H. apply map_has_keys. rewrite <- (same_graph_keys _ _ G).
      now apply map_has_keys.
    + intros a b H. now rewrite (same_graph_dependencies _ _ a G).
    + intros a b H. now rewrite (same_graph_dependents _ _ a G).
Qed.

Lemma set_has_keys k m : set_has k (keys m) = map_has k m.
Proof.
  destruct (map_has k m) eqn:E.
  - apply set_has_In. now apply map_has_keys.
  - apply set_has_false. rewrite <- map_has_keys. congruence.
Qed.

Lemma after_call_keys c o :
  keys (_tasks (after_call c o))
  = match o with
    | call_addTask d => set_add (def_name d) (keys (_tasks c))
    | _ => keys (_tasks c)
    end.
Proof.
  destruct o as [d | n | n deps |]; simpl.
  - unfold set_add. rewrite set_has_keys.
    destruct (map_has (def_name d) (_tasks c)) eqn:E.
    + unfold addTask. now rewrite E.
    + destruct (addTask_tasks d c E) as [-> _]. unfold keys. now rewrite map_app.
  - reflexivity.
  - unfold addDependencies. destruct (map_get n (_tasks c)); [| reflexivity].
    destruct deps as [deps |]; [| reflexivity].
    pose proof (addDependencies_loop_keys n deps (_tasks c)) as H.
    now destruct (addDependencies_loop n deps (_tasks c)).
  - symmetry. apply same_graph_keys. apply getOrderedTasks_frame.
Qed.

(** X12.  After any sequence of calls the registry holds the names given to
    [addTask], each once, in the order of their first registration; the
    other calls and repeated registrations change neither the names nor
    their order. *)
Theorem registry_is_first_registrations q l :
  keys (_tasks (after_calls q l)) = registered_names l.
Proof.
  unfold after_calls, registered_names.
  assert (H : forall c acc, keys (_tasks c) = acc ->
            keys (_tasks (fold_left after_call l c))
            = fold_left
                (fun acc o => match o with
                              | call_addTask d => set_add (def_name d) acc
                              | _ => acc
                              end) l acc).
  { induction l as [| o l IH]; intros c acc E; [exact E |].
    simpl. apply IH. rewrite after_call_keys, E. now destruct o. }
  now apply H.
Qed.

Lemma after_call_terminal c o :
  _quietMode (after_call c o) = _quietMode c
  /\ _terminal (after_call c o)
     = match o with
       | call_addTask d =>
           if map_has (def_name d) (_tasks c) || _quietMode c then _terminal c
           else _terminal c ++ [("Registered " ++ def_name d)%string]
       | _ => _terminal c
       end.
Proof.
  destruct o as [d | n | n deps |]; simpl.
  - unfold addTask. destruct (map_has (def_name d) (_tasks c)); simpl; [auto |].
    destruct (_quietMode c) eqn:Q; simpl; rewrite ?Q; auto.
  - auto.
  - unfold addDependencies. destruct (map_get n (_tasks c)); [| auto].
    destruct deps as [deps |]; [| auto].
    destruct (addDependencies_loop n deps (_tasks c)). simpl. auto.
  - destruct (getOrderedTasks_frame c) as (_ & Q & T). auto.
Qed.

(** X13.  The terminal receives one line per registered task, "Registered "
    and the name, in the order of registration, and nothing else; in quiet
    mode it receives nothing.  No call changes the mode. *)
Theorem terminal_lists_registrations q l :
  _quietMode (after_calls q l) = q
  /\ _terminal (after_calls q l)
     = if q then []
       else map (fun k => ("Registered " ++ k)%string) (keys (_tasks (after_calls q l))).
Proof.
  unfold after_calls.
  assert (H : forall c,
            _quietMode c = q ->
            _terminal c
            = (if q then [] else map (fun k => ("Registered " ++ k)%string) (keys (_tasks c))) ->
            _quietMode (fold_left after_call l c) = q
            /\ _terminal (fold_left after_call l c)
               = if q then []
                 else map (fun k => ("Registered " ++ k)%string)
                        (keys (_tasks (fold_left after_call l c)))).
  { induction l as [| o l IH]; intros c Q T; [auto |].
    simpl. destruct (after_call_terminal c o) as [Q' T'].
    apply IH; [congruence |].
    rewrite T', after_call_keys, Q, T. destruct o as [d | n | n deps |]; auto.
    unfold set_add. rewrite set_has_keys.
    destruct (map_has (def_name d) (_tasks c)); simpl; [reflexivity |].
    destruct q; [reflexivity |]. now rewrite map_app. }
  apply H; [reflexivity | now destruct q].
Qed.

Lemma clos_trans_reach m x y : clos_trans string (edge m) x y -> reach m x y.
Proof.
  induction 1 as [x y E | x y z _ IH1 _ IH2].
  - now apply rt_step.
  - eapply rt_trans; eassumption.
Qed.

Lemma edge_add_edge n d m a b :
  In d (keys m) ->
  (edge (add_edge n d m) a b <-> edge m a b \/ (a = d /\ b = n)).
Proof.
  intros Hd. unfold edge. rewrite dependents_of_add_edge by exact Hd.
  destruct (String.eqb_spec d a) as [E | E].
  - rewrite set_add_In. subst. intuition.
  - intuition congruence.
Qed.

(** A path of the graph with the new edge is a path of the old graph or runs
    through the new edge. *)
Lemma clos_trans_add_edge n d m x y :
  In d (keys m) ->
  clos_trans string (edge (add_edge n d m)) x y ->
  clos_trans string (edge m) x y \/ (reach m x d /\ reach m n y).
Proof.
  intros Hd C. induction C as [x y E | x y z _ IH1 _ IH2].
  - apply (edge_add_edge n d m x y Hd) in E. destruct E as [E | [-> ->]].
    + left. now apply t_step.
    + right. split; apply rt_refl.
  - destruct IH1 as [L1 | [R1 R1']], IH2 as [L2 | [R2 R2']].
    + left. eapply t_trans; eassumption.
    + right. split; [| exact R2'].
      eapply rt_trans; [apply clos_trans_reach; exact L1 | exact R2].
    + right. split; [exact R1 |].
      eapply rt_trans; [exact R1' | apply clos_trans_reach; exact L2].
    + right. split; assumption.
Qed.

Lemma reach_add_edge n d m x y :
  In d (keys m) -> reach m x y -> reach (add_edge n d m) x y.
Proof.
  intros Hd R. induction R as [x y E | x | x y z _ IH1 _ IH2].
  - apply rt_step. apply edge_add_edge; auto.
  - apply rt_refl.
  - eapply rt_trans; eassumption.
Qed.

Lemma getOrderedTasks_throw_cycle c c' e :
  wf (_tasks c) -> getOrderedTasks c = (c', Throw e) ->
  exists t, on_cycle (_tasks c) t.
Proof.
  intros W E. unfold getOrderedTasks, getOrderedTasks_with in E.
  pose proof (check_top (_tasks c) (wf_closed _ W)) as H.
  destruct (_checkForCyclicDependencies (budget (_tasks c)) (_tasks c)
              (keys (_tasks c)) [] []) as [ck | e0 |] eqn:Ec; simpl in H.
  - exfalso.
    assert (A : acyclic (_tasks c))
      by (eapply check_return_acyclic; [apply W | exact Ec]).
    destruct (calculateAll_spec (_tasks c) (budget (_tasks c)) A (wf_closed _ W))
      with (tasks := keys (_tasks c)) (m := _tasks c) as (m' & Ea & _).
    + rewrite length_keys. unfold budget. lia.
    + apply same_graph_refl.
    + apply incl_refl.
    + rewrite Ea in E. discriminate.
  - destruct H as (pre & t & cyc & _ & P & _). exists t.
    apply is_path_app_inv in P. now apply is_path_clos_trans in P.
  - contradiction.
Qed.

(** X14.  On an acyclic collection, declaring that [n] depends on [d] makes
    the next [getOrderedTasks] throw the cyclic-dependency error exactly
    when [d] is [n] or already depends on [n] through a chain of
    dependencies, that is, when [d] is reached from [n] along dependents. *)
Theorem dependency_closes_cycle c n d c1 :
  wf (_tasks c) -> acyclic (_tasks c) ->
  addDependencies n (Some [d]) c = (c1, Return tt) ->
  ((exists chain, getOrderedTasks c1 = (c1, Throw (CyclicDependency chain)))
   <-> reach (_tasks c) n d).
Proof.
  intros W A E. unfold addDependencies in E.
  destruct (map_get n (_tasks c)) as [t |] eqn:Eg; [| discriminate].
  rewrite addDependencies_loop_cons in E.
  destruct (map_has d (_tasks c)) eqn:Hd; [| discriminate].
  simpl in E. injection E as <-.
  assert (Kn : In n (keys (_tasks c))) by (apply map_get_keys; eauto).
  assert (Kd : In d (keys (_tasks c))) by now apply map_has_keys.
  assert (W1 : wf (add_edge n d (_tasks c))) by now apply wf_add_edge.
  split.
  - intros [chain T].
    destruct (getOrderedTasks_throw_cycle
                (with_tasks c (add_edge n d (_tasks c))) _ _ W1 T) as [x C].
    simpl in C.
    destruct (clos_trans_add_edge n d (_tasks c) x x Kd C) as [C0 | [R1 R2]].
    + exfalso. exact (A x C0).
    + eapply rt_trans; eassumption.
  - intros R.
    destruct (getOrderedTasks_cyclic (with_tasks c (add_edge n d (_tasks c))) d W1)
      as (pre & t0 & cyc & T & _).
    + simpl. apply (edge_reach_cycle _ d n).
      * apply edge_add_edge; auto.
      * now apply reach_add_edge.
    + eauto.
Qed.

Lemma dependency_closes_cycle_witness :
  wf (_tasks chain_of_three) /\ acyclic (_tasks chain_of_three)
  /\ addDependencies "A" (Some ["C"]) chain_of_three
     = (fst (addDependencies "A" (Some ["C"]) chain_of_three), Return tt)
  /\ ((exists chain,
         getOrderedTasks (fst (addDependencies "A" (Some ["C"]) chain_of_three))
         = (fst (addDependencies "A" (Some ["C"]) chain_of_three),
            Throw (CyclicDependency chain)))
      <-> reach (_tasks chain_of_three) "A" "C").
Proof.
  assert (W : wf (_tasks chain_of_three)) by apply after_calls_wf.
  assert (A : acyclic (_tasks chain_of_three)).
  { apply acyclic_by_check; [exact W |]. eexists. vm_compute. reflexivity. }
  assert (E : addDependencies "A" (Some ["C"]) chain_of_three
     = (fst (addDependencies "A" (Some ["C"]) chain_of_three), Return tt))
    by reflexivity.
  split; [exact W |]. split; [exact A |]. split; [exact E |].
  exact (dependency_closes_cycle chain_of_three "A" "C" _ W A E).
Defined.

(** ** The arguments [Git] hands to [execCommand] *)

Lemma split_space_cons s : exists h t, split_space s = h :: t.
Proof.
  destruct s as [| ch r]; simpl; [eauto |].
  destruct (Ascii.eqb ch space); [eauto |].
  destruct (split_space r); eauto.
Qed.

Lemma join_cons_cons sep x y r :
  join sep (x :: y :: r) = (x ++ sep ++ join sep (y :: r))%string.
Proof. reflexivity. Qed.

Lemma join_split_space s : join (String space EmptyString) (split_space s) = s.
Proof.
  induction s as [| ch r IH]; [reflexivity |].
  simpl split_space. destruct (split_space_cons r) as (h & t & E). rewrite E in *.
  destruct (Ascii.eqb_spec ch space) as [-> | Ne].
  - rewrite join_cons_cons, IH. reflexivity.
  - destruct t as [| y t].
    + simpl in *. now rewrite IH.
    + rewrite join_cons_cons in *. rewrite <- IH. reflexivity.
Qed.

Lemma split_space_no_space s :
  Forall (fun a => has_space a = false) (split_space s).
Proof.
  induction s as [| ch r IH]; [repeat constructor |].
  simpl split_space. destruct (Ascii.eqb ch space) eqn:E.
  - constructor; [reflexivity | exact IH].
  - destruct (split_space r) as [| h t]; [repeat constructor; simpl; now rewrite E |].
    inversion IH as [| ? ? Hh Ht]; subst.
    constructor; [simpl; now rewrite E, Hh | exact Ht].
Qed.

Lemma split_space_length s : length (split_space s) = S (count_spaces s).
Proof.
  induction s as [| ch r IH]; [reflexivity |].
  simpl. destruct (split_space_cons r) as (h & t & E). rewrite E in *.
  destruct (Ascii.eqb ch space); simpl in *; now rewrite IH.
Qed.

Lemma split_space_app a b :
  has_space a = false ->
  split_space (a ++ String space b)%string = a :: split_space b.
Proof.
  induction a as [| ch a IH]; simpl; intros H.
  - reflexivity.
  - apply orb_false_iff in H. destruct H as [H1 H2]. rewrite H1, (IH H2). reflexivity.
Qed.

Lemma split_space_word s : has_space s = false -> split_space s = [s].
Proof.
  induction s as [| ch r IH]; simpl; intros H; [reflexivity |].
  apply orb_false_iff in H. destruct H as [H1 H2]. now rewrite H1, (IH H2).
Qed.

Lemma count_spaces_app a b :
  count_spaces (a ++ b)%string = count_spaces a + count_spaces b.
Proof.
  induction a as [| ch a IH]; simpl; [reflexivity |]. rewrite IH. lia.
Qed.

Lemma truthy_true s : truthy s = true <-> s <> EmptyString.
Proof.
  unfold truthy. destruct (String.eqb_spec s EmptyString); simpl; split; congruence.
Qed.

(** X15.  Every method of [Git] runs the command "git" and nothing else,
    and asks for execution only when the target branch is a nonempty
    string; [addTag] asks for it only when, in addition, its own flag is
    set.  With an empty target branch no call is executed. *)
Theorem git_executes_only_with_target_branch tb createTagname o :
  Forall (fun e =>
            command e = "git"
            /\ shouldExecute e
               = truthy tb
                 && match o with git_addTag flag _ _ => flag | _ => true end)
    (git_commands tb createTagname o)
  /\ (tb = EmptyString ->
      Forall (fun e => shouldExecute e = false) (git_commands tb createTagname o)).
Proof.
  split.
  - destruct o; simpl; repeat constructor; simpl; now rewrite ?andb_true_r.
  - intros ->. destruct o; simpl; repeat constructor.
Qed.

(** X16.  For a branch name without a space, the arguments are the words one
    expects: [checkout] passes the name after "checkout", with "-b" between
    them when a branch is to be created; [merge] passes it between "merge"
    and "--no-edit"; [deleteBranch] deletes the local branch first and the
    branch on origin second. *)
Theorem git_arguments_of_plain_name tb b :
  has_space b = false ->
  map args (Git.checkout tb b (Some true)) = [["checkout"; "-b"; b]]
  /\ map args (Git.checkout tb b (Some false)) = [["checkout"; b]]
  /\ map args (Git.checkout tb b None) = [["checkout"; b]]
  /\ map args (Git.merge tb b) = [["merge"; b; "--no-edit"]]
  /\ map args (Git.deleteBranch tb b)
     = [["branch"; "-d"; b]; ["push"; "origin"; "--delete"; b]].
Proof.
  intros H. pose proof (split_space_word b H) as Hb.
  pose proof (split_space_app b "--no-edit" H) as Hm.
  unfold Git.checkout, Git.merge, Git.deleteBranch. simpl.
  rewrite ?Ascii.eqb_refl. simpl. rewrite Hb.
  change (b ++ " --no-edit")%string with (b ++ String space "--no-edit")%string.
  rewrite Hm. repeat split; reflexivity.
Qed.

Lemma git_arguments_of_plain_name_witness :
  has_space "release-1" = false
  /\ map args (Git.merge "main" "release-1") = [["merge"; "release-1"; "--no-edit"]].
Proof.
  assert (H : has_space "release-1" = false) by reflexivity.
  split; [exact H |].
  exact (proj1 (proj2 (proj2 (proj2 (git_arguments_of_plain_name "main" "release-1" H))))).
Defined.

(** X17.  The arguments of [checkout], [merge] and [deleteBranch] are the
    command line cut at every space, so a branch name with a space in it
    never arrives as one argument. *)
Theorem git_name_with_space_is_cut tb b cb :
  has_space b = true ->
  Forall (fun e => ~ In b (args e))
    (Git.checkout tb b cb ++ Git.merge tb b ++ Git.deleteBranch tb b).
Proof.
  intros H.
  assert (N : forall s, ~ In b (split_space s)).
  { intros s Hin. pose proof (split_space_no_space s) as F.
    rewrite Forall_forall in F. rewrite (F b Hin) in H. discriminate. }
  unfold Git.checkout, Git.merge, Git.deleteBranch.
  repeat (apply Forall_cons; [exact (N _) |]). apply Forall_nil.
Qed.

Lemma git_name_with_space_is_cut_witness :
  has_space "my branch" = true
  /\ Forall (fun e => ~ In "my branch" (args e))
       (Git.checkout "main" "my branch" None ++ Git.merge "main" "my branch"
        ++ Git.deleteBranch "main" "my branch").
Proof.
  assert (H : has_space "my branch" = true) by reflexivity.
  split; [exact H |].
  exact (git_name_with_space_is_cut "main" "my branch" None H).
Defined.

(** X18.  For any branch name the arguments of [checkout] and [merge],
    joined by single spaces, give back the command line, and their number
    is the number of words of the fixed part and one more than the number
    of spaces in the name. *)
Theorem git_arguments_are_the_words tb b cb :
  map (fun e => join " " (args e)) (Git.checkout tb b cb)
  = [("checkout " ++ (match cb with Some true => "-b " | _ => "" end) ++ b)%string]
  /\ map (fun e => join " " (args e)) (Git.merge tb b)
     = [("merge " ++ b ++ " --no-edit")%string]
  /\ map (fun e => length (args e)) (Git.checkout tb b cb)
     = [(match cb with Some true => 3 | _ => 2 end) + count_spaces b]
  /\ map (fun e => length (args e)) (Git.merge tb b) = [3 + count_spaces b].
Proof.
  unfold Git.checkout, Git.merge. cbn [map args].
  split; [| split; [| split]].
  - f_equal. exact (join_split_space _).
  - f_equal. exact (join_split_space _).
  - f_equal. rewrite split_space_length, !count_spaces_app.
    destruct cb as [[|] |]; simpl; lia.
  - f_equal. rewrite split_space_length, !count_spaces_app. simpl. lia.
Qed.

(** X19.  Whenever [getOrderedTasks] returns on a well-formed collection,
    after earlier orderings and later edges too, the queue is a permutation
    of the values of the registry as the call leaves it, and every task of
    the queue has a length.  Of the library sort this takes only that it
    permutes the queue. *)
Theorem returned_queue_is_the_registry sort c c' q :
  (forall l key, Permutation l (sort l key)) ->
  wf (_tasks c) ->
  getOrderedTasks_with sort c = (c', Return q) ->
  Permutation q (values (_tasks c'))
  /\ length q = length (_tasks c)
  /\ Forall cpl_defined q.
Proof.
  intros S W E.
  destruct (getOrderedTasks_with_return sort c c' q W E) as (_ & G & -> & _ & _ & D).
  assert (P : Permutation (values (_tasks c')) (sort (values (_tasks c')) sort_key))
    by apply S.
  split; [now apply Permutation_sym |]. split.
  - rewrite <- (Permutation_length P). unfold values. rewrite length_map.
    rewrite <- !length_keys. now rewrite (same_graph_keys _ _ G).
  - apply (Permutation_Forall P). apply cpl_defined_values.
    + rewrite <- (same_graph_keys _ _ G). apply W.
    + intros k Hk. apply D. now rewrite (same_graph_keys _ _ G).
Qed.

Lemma returned_queue_is_the_registry_witness :
  (forall l key, Permutation l (sortBy l key))
  /\ wf (_tasks stale_memo)
  /\ Permutation
       (sortBy (values (_tasks (fst (getOrderedTasks stale_memo)))) sort_key)
       (values (_tasks (fst (getOrderedTasks stale_memo)))).
Proof.
  assert (S : forall l key, Permutation l (sortBy l key))
    by (intros l key; apply sortBy_perm).
  assert (W : wf (_tasks stale_memo)) by apply after_calls_wf.
  split; [exact S |]. split; [exact W |].
  apply (returned_queue_is_the_registry sortBy stale_memo
           (fst (getOrderedTasks stale_memo)) _ S W).
  vm_compute. reflexivity.
Defined.
